(** * View-to-model conversion dispatcher and InsertOperation of the
    CKEditor 5 engine, shallow embedding.

    [ViewConversionDispatcher] (conversion/viewconversiondispatcher.js) and
    [InsertOperation] (model/operation/insertoperation.js).  JavaScript objects
    live in explicit heaps so that sharing by reference is visible. *)

From Stdlib Require Import List String Ascii Bool Arith Lia ZArith.
Import ListNotations.
Set Warnings "-register-all".
Set Warnings "-notation-overridden".
Open Scope list_scope.

(* ================================================================== *)
(** ** Part 1: ViewConversionDispatcher *)
(* ================================================================== *)

Module Dispatcher.

(** View items: the three runtime kinds that [_convertItem] tells apart with
    [instanceof ViewElement] and [instanceof ViewText]; every other input
    (a document fragment) falls in the last branch. *)
Inductive vitem : Type :=
| VElement (name : string) (children : list vitem)
| VText (data : string)
| VFragment (children : list vitem).

(** JavaScript values.  Objects (request records, arrays, model nodes
    created by converters) are references [JRef] into the heap; view items
    are carried as [JView].  Numbers are integers (NaN is not modelled). *)
Inductive jsval : Type :=
| JUndef
| JNull
| JBool (b : bool)
| JNum (n : Z)
| JStr (s : string)
| JRef (l : nat)
| JView (v : vitem).

Inductive jsobj : Type :=
| OArr (xs : list jsval)
| ORec (fs : list (string * jsval)).

Definition heap := list jsobj.

(** JavaScript truthiness: the test [b ? ... : ...] in [_convertChildren]. *)
Definition truthy (v : jsval) : bool :=
  match v with
  | JUndef | JNull => false
  | JBool b => b
  | JNum n => negb (Z.eqb n 0)
  | JStr s => negb (String.eqb s EmptyString)
  | JRef _ | JView _ => true
  end.

(** Property lookup and assignment on a record (an object with own
    enumerable properties, in insertion order). *)
Fixpoint lookup_field (k : string) (fs : list (string * jsval)) : jsval :=
  match fs with
  | [] => JUndef
  | (k', v) :: fs' => if String.eqb k k' then v else lookup_field k fs'
  end.

Fixpoint set_field (k : string) (v : jsval) (fs : list (string * jsval))
  : list (string * jsval) :=
  match fs with
  | [] => [(k, v)]
  | (k', v') :: fs' =>
      if String.eqb k k' then (k', v) :: fs' else (k', v') :: set_field k v fs'
  end.

(** [extend( target, source )]: copies the properties of [source] onto
    [target], left to right. *)
Definition extend_fields (target src : list (string * jsval))
  : list (string * jsval) :=
  fold_left (fun acc kv => set_field (fst kv) (snd kv) acc) src target.

(** Properties contributed by an [additionalData] argument: those of the
    record it references.  [undefined] takes the default [{}]; other
    primitives and arrays contribute nothing here. *)
Definition source_fields (h : heap) (add : jsval) : list (string * jsval) :=
  match add with
  | JRef l =>
      match nth_error h l with
      | Some (ORec fs) => fs
      | _ => []
      end
  | _ => []
  end.

(** [extend( {}, additionalData, { input: input, output: null } )] *)
Definition request_fields (h : heap) (add : jsval) (input : vitem)
  : list (string * jsval) :=
  extend_fields (extend_fields [] (source_fields h add))
    [("input"%string, JView input); ("output"%string, JNull)].

(** [data.output] read from the record at location [d]. *)
Definition read_output (h : heap) (d : nat) : jsval :=
  match nth_error h d with
  | Some (ORec fs) => lookup_field "output" fs
  | _ => JUndef
  end.

(** The event chosen by [_convertItem]. *)
Definition event_name (input : vitem) : string :=
  match input with
  | VElement name _ => String.append "element:" name
  | VText _ => "text"
  | VFragment _ => "documentFragment"
  end.

Definition view_children (input : vitem) : option (list vitem) :=
  match input with
  | VElement _ cs => Some cs
  | VFragment cs => Some cs
  | VText _ => None (* a view text has no [getChildren]: TypeError *)
  end.

(** Modelled from the spec: the Consumable Tracker (viewconsumable.js is not
    part of the sources).  [ViewConsumable.createFrom( viewItem )] records
    every node of the subtree; [consume] succeeds at most once per node. *)
Fixpoint subtree (v : vitem) : list vitem :=
  match v with
  | VElement n cs => v :: (fix go l := match l with
                                       | [] => []
                                       | c :: l' => subtree c ++ go l'
                                       end) cs
  | VText _ => [v]
  | VFragment cs => v :: (fix go l := match l with
                                       | [] => []
                                       | c :: l' => subtree c ++ go l'
                                       end) cs
  end.

Fixpoint vitem_eqb (a b : vitem) : bool :=
  let fix list_eqb (xs ys : list vitem) : bool :=
    match xs, ys with
    | [], [] => true
    | x :: xs', y :: ys' => vitem_eqb x y && list_eqb xs' ys'
    | _, _ => false
    end in
  match a, b with
  | VElement n cs, VElement n' cs' => String.eqb n n' && list_eqb cs cs'
  | VText s, VText s' => String.eqb s s'
  | VFragment cs, VFragment cs' => list_eqb cs cs'
  | _, _ => false
  end.

Fixpoint take_one (v : vitem) (l : list vitem) : option (list vitem) :=
  match l with
  | [] => None
  | x :: l' =>
      if vitem_eqb v x then Some l'
      else match take_one v l' with
           | Some r => Some (x :: r)
           | None => None
           end
  end.

(** The event log.  A fired conversion event records the events fired while
    its listeners ran, so each call of [_convertItem] leaves one entry. *)
Inductive event : Type :=
| ECleanup (v : vitem)
| ECreated (v : vitem)
| EFired (name : string) (input : vitem) (during : list event).

Record world : Type := mkWorld {
  w_heap : heap;
  w_trackers : list (list vitem);
  w_trace : list event
}.

(** Listener code.  A listener of a conversion event receives the request
    record [data] (a location), the consumable (an index into the trackers)
    and the conversion API, whose two entry points are the constructors
    [PConvertItem] and [PConvertChildren].  Any other effect of a listener is
    a heap transformation [PHeap]; [PThrow] is a thrown error. *)
Inductive prog : Type :=
| PDone
| PThrow
| PHeap (f : heap -> jsval * heap) (k : jsval -> prog)
| PConsume (c : nat) (v : vitem) (k : bool -> prog)
| PConvertItem (v : vitem) (c : nat) (add : jsval) (k : jsval -> prog)
| PConvertChildren (v : vitem) (c : nat) (add : jsval) (k : jsval -> prog).

Definition listener := nat -> nat -> prog.

Definition set_heap (h : heap) (w : world) : world :=
  mkWorld h (w_trackers w) (w_trace w).

Definition consume (c : nat) (v : vitem) (w : world) : option (bool * world) :=
  match nth_error (w_trackers w) c with
  | None => None
  | Some t =>
      match take_one v t with
      | Some t' =>
          Some (true, mkWorld (w_heap w)
                        (firstn c (w_trackers w) ++ t' :: skipn (S c) (w_trackers w))
                        (w_trace w))
      | None => Some (false, w)
      end
  end.

(** [a.concat( b )]: an array argument is spread, any other value appended. *)
Definition spread (h : heap) (b : jsval) : list jsval :=
  match b with
  | JRef l =>
      match nth_error h l with
      | Some (OArr xs) => xs
      | _ => [b]
      end
  | _ => [b]
  end.

(** [convertedChildren.reduce( ( a, b ) => b ? a.concat( b ) : a, [] )] *)
Definition flatten_results (h : heap) (rs : list jsval) : list jsval :=
  fold_left (fun a b => if truthy b then a ++ spread h b else a) rs [].

(** Sequential [map] threading the world. *)
Fixpoint map_world (conv : vitem -> world -> option (jsval * world))
    (l : list vitem) (w : world) : option (list jsval * world) :=
  match l with
  | [] => Some ([], w)
  | v :: l' =>
      match conv v w with
      | None => None
      | Some (r, w1) =>
          match map_world conv l' w1 with
          | None => None
          | Some (rs, w2) => Some (r :: rs, w2)
          end
      end
  end.

(** Body of [_convertChildren], given the item converter.  The result array
    is allocated as one new heap object (the intermediate arrays built by
    [concat] are garbage). *)
Definition children_with (conv : vitem -> world -> option (jsval * world))
    (input : vitem) (w : world) : option (jsval * world) :=
  match view_children input with
  | None => None
  | Some kids =>
      match map_world conv kids w with
      | None => None
      | Some (rs, w1) =>
          let h1 := w_heap w1 in
          Some (JRef (List.length h1),
                set_heap (h1 ++ [OArr (flatten_results h1 rs)]) w1)
      end
  end.

(** Kinds of view items, as told apart by [_convertItem]. *)
Inductive vkind : Type := KElement | KText | KOther.

Definition kind_of (v : vitem) : vkind :=
  match v with
  | VElement _ _ => KElement
  | VText _ => KText
  | VFragment _ => KOther
  end.

(** [obj[ k ] = v] on the record at location [l]. *)
Definition write_field (h : heap) (l : nat) (k : string) (v : jsval) : heap :=
  match nth_error h l with
  | Some (ORec fs) => firstn l h ++ ORec (set_field k v fs) :: skipn (S l) h
  | _ => h
  end.

(** Listener code for [data.output = v; k]. *)
Definition set_output (d : nat) (v : jsval) (k : prog) : prog :=
  PHeap (fun h => (JUndef, write_field h d "output" v)) (fun _ => k).

(** Listeners of each event name, in the order the emitter calls them
    (name-specific and namespace listeners alike), and the listeners of
    [viewCleanup], which receive the view item only. *)
Section Dispatch.
Variable listeners : string -> list listener.
Variable cleanup_listeners : list (vitem -> heap -> heap).

Fixpoint run_listeners (run : prog -> world -> option world)
    (ls : list listener) (d c : nat) (w : world) : option world :=
  match ls with
  | [] => Some w
  | l :: ls' =>
      match run (l d c) w with
      | None => None
      | Some w1 => run_listeners run ls' d c w1
      end
  end.

(** Running the code of one listener.  [conv] is the item converter the
    conversion API is bound to ([this._convertItem.bind( this )]). *)
Fixpoint run_prog (conv : vitem -> nat -> jsval -> world -> option (jsval * world))
    (p : prog) (w : world) : option world :=
  match p with
  | PDone => Some w
  | PThrow => None
  | PHeap g k =>
      let '(v, h') := g (w_heap w) in run_prog conv (k v) (set_heap h' w)
  | PConsume c v k =>
      match consume c v w with
      | None => None
      | Some (b, w') => run_prog conv (k b) w'
      end
  | PConvertItem v c a k =>
      match conv v c a w with
      | None => None
      | Some (r, w') => run_prog conv (k r) w'
      end
  | PConvertChildren v c a k =>
      match children_with (fun x => conv x c a) v w with
      | None => None
      | Some (r, w') => run_prog conv (k r) w'
      end
  end.

(** [_convertItem( input, consumable, additionalData )]: build the request
    record, fire the event chosen by the kind of [input], return
    [data.output].  [fuel] bounds the depth of nested conversions (running
    out is reported as [None], like an error). *)
Fixpoint convert_item (fuel : nat) (input : vitem) (c : nat) (add : jsval)
    (w : world) {struct fuel} : option (jsval * world) :=
  match fuel with
  | O => None
  | S f =>
      let h := w_heap w in
      let d := List.length h in
      let name := event_name input in
      let w1 := mkWorld (h ++ [ORec (request_fields h add input)])
                        (w_trackers w) [] in
      match run_listeners (run_prog (convert_item f)) (listeners name) d c w1 with
      | None => None
      | Some w2 =>
          Some (read_output (w_heap w2) d,
                mkWorld (w_heap w2) (w_trackers w2)
                        (w_trace w ++ [EFired name input (w_trace w2)]))
      end
  end.

(** [_convertChildren( input, consumable, additionalData )] *)
Definition convert_children (fuel : nat) (input : vitem) (c : nat)
    (add : jsval) (w : world) : option (jsval * world) :=
  children_with (fun x => convert_item fuel x c add) input w.

(** [convert( viewItem, additionalData )]: fire [viewCleanup], build the
    consumable from the whole subtree, convert the item. *)
Definition convert (fuel : nat) (viewItem : vitem) (add : jsval) (w : world)
  : option (jsval * world) :=
  let h1 := fold_left (fun h l => l viewItem h) cleanup_listeners (w_heap w) in
  let w1 := mkWorld h1 (w_trackers w) (w_trace w ++ [ECleanup viewItem]) in
  let c := List.length (w_trackers w1) in
  let w2 := mkWorld (w_heap w1) (w_trackers w1 ++ [subtree viewItem])
                    (w_trace w1 ++ [ECreated viewItem]) in
  convert_item fuel viewItem c add w2.

End Dispatch.

(** The [conversionApi] object of a dispatcher: a property copied from the
    constructor's argument, or one of the two bound methods. *)
Inductive api_val : Type :=
| AVal (v : jsval)
| AConvertItem      (* this._convertItem.bind( this ) *)
| AConvertChildren. (* this._convertChildren.bind( this ) *)

Fixpoint api_set (k : string) (v : api_val) (fs : list (string * api_val))
  : list (string * api_val) :=
  match fs with
  | [] => [(k, v)]
  | (k', v') :: fs' =>
      if String.eqb k k' then (k', v) :: fs' else (k', v') :: api_set k v fs'
  end.

Fixpoint api_lookup (k : string) (fs : list (string * api_val)) : api_val :=
  match fs with
  | [] => AVal JUndef
  | (k', v) :: fs' => if String.eqb k k' then v else api_lookup k fs'
  end.

(** [constructor( conversionApi = {} )]:
    [this.conversionApi = extend( {}, conversionApi )], then the two bound
    methods are assigned on it. *)
Definition make_conversion_api (h : heap) (conversionApi : jsval)
  : list (string * api_val) :=
  let copy := fold_left (fun acc kv => api_set (fst kv) (AVal (snd kv)) acc)
                (source_fields h conversionApi) [] in
  let a1 := api_set "convertItem" AConvertItem copy in
  api_set "convertChildren" AConvertChildren a1.

(** What one child contributes to the array built by [_convertChildren]. *)
Definition contribution (h : heap) (b : jsval) : list jsval :=
  if truthy b then spread h b else [].

(** Concrete listener sets. *)
Definition no_listeners : string -> list listener := fun _ => [].

(** A [text] converter that sets [data.output] and never consumes. *)
Definition output_without_consume : string -> list listener := fun n =>
  if String.eqb n "text" then [fun d c => set_output d (JNum 1) PDone] else [].

(** A paragraph converter that consumes the element and converts its
    children with its own record as additional data, and a text converter
    whose output is the text's data. *)
Definition para_item : vitem := VElement "p" [VText "a"; VText ""].

Definition para_listeners : string -> list listener := fun n =>
  if String.eqb n "element:p" then
    [fun d c => PConsume c para_item (fun _ =>
       PConvertChildren para_item c (JRef d) (fun r => set_output d r PDone))]
  else if String.eqb n "text" then
    [fun d c =>
       PHeap (fun h => (match nth_error h d with
                        | Some (ORec fs) => lookup_field "input" fs
                        | _ => JUndef
                        end, h))
         (fun v => match v with
                   | JView (VText s) => set_output d (JStr s) PDone
                   | _ => PDone
                   end)]
  else [].

Definition empty_world : world := mkWorld [] [] [].

(** A world whose only consumable was built from [para_item]. *)
Definition para_world : world := mkWorld [] [subtree para_item] [].

End Dispatcher.

(* ================================================================== *)
(** ** Part 2: InsertOperation *)
(* ================================================================== *)

Module InsertOp.

Local Open Scope string_scope.
Local Open Scope list_scope.

Definition attrs := list (string * string).

(** Model objects: text nodes, elements (children by reference) and
    positions (a root element and an offset path). *)
Inductive mobj : Type :=
| MText (data : string) (attributes : attrs)
| MElem (name : string) (attributes : attrs) (children : list nat)
| MPos (root : nat) (path : list nat).

Definition mheap := list mobj.

Definition alloc (h : mheap) (o : mobj) : nat * mheap := (List.length h, h ++ [o]).

(** [obj = o] at location [l] (in place mutation). *)
Fixpoint set_nth {A} (l : list A) (n : nat) (x : A) : list A :=
  match l, n with
  | [], _ => []
  | _ :: t, O => x :: t
  | y :: t, S m => y :: set_nth t m x
  end.

Record insert_op : Type := mkInsert {
  io_position : nat;
  io_nodes : list nat;
  io_baseVersion : Z
}.

(** Modelled from the spec: RemoveOperation (removeoperation.js is not part
    of the sources), a removal of [howMany] offsets at [position]. *)
Record remove_op : Type := mkRemove {
  ro_position : nat;
  ro_howMany : nat;
  ro_baseVersion : Z
}.

(** Modelled from the spec: [Position.createFromPosition( position )]
    (position.js is not part of the sources), an owned copy created by value. *)
Definition create_from_position (p : nat) (h : mheap) : option (nat * mheap) :=
  match nth_error h p with
  | Some (MPos r path) => Some (alloc h (MPos r path))
  | _ => None
  end.

(** Node sets accepted by the constructor: a single node, a string, or an
    ordered collection of node-likes. *)
Inductive nodeitem : Type := INode (l : nat) | IString (s : string).

Inductive nodeset : Type :=
| NSNode (l : nat)
| NSString (s : string)
| NSList (items : list nodeitem).

(** Modelled from the spec: [normalizeNodes] (writer.js is not part of the
    sources): nodes are kept, a string becomes a new text node, in order. *)
Definition normalize_item (h : mheap) (i : nodeitem) : nat * mheap :=
  match i with
  | INode l => (l, h)
  | IString s => alloc h (MText s [])
  end.

Fixpoint normalize_items (items : list nodeitem) (h : mheap) : list nat * mheap :=
  match items with
  | [] => ([], h)
  | i :: items' =>
      let '(l, h1) := normalize_item h i in
      let '(ls, h2) := normalize_items items' h1 in
      (l :: ls, h2)
  end.

Definition normalize_nodes (ns : nodeset) (h : mheap) : list nat * mheap :=
  match ns with
  | NSNode l => ([l], h)
  | NSString s => let '(l, h1) := alloc h (MText s []) in ([l], h1)
  | NSList items => normalize_items items h
  end.

(** [constructor( position, nodes, baseVersion )] *)
Definition construct (position : nat) (nodes : nodeset) (baseVersion : Z)
    (h : mheap) : option (insert_op * mheap) :=
  match create_from_position position h with
  | None => None
  | Some (p, h1) =>
      let '(ls, h2) := normalize_nodes nodes h1 in
      Some (mkInsert p ls baseVersion, h2)
  end.

(** Modelled from the spec: [node.clone( true )], a deep copy (children are
    cloned first, then the element built from them).  [fuel] bounds the
    depth; a cyclic structure makes the copy fail. *)
Fixpoint map_heap (g : nat -> mheap -> option (nat * mheap)) (ls : list nat)
    (h : mheap) : option (list nat * mheap) :=
  match ls with
  | [] => Some ([], h)
  | l :: ls' =>
      match g l h with
      | None => None
      | Some (l', h1) =>
          match map_heap g ls' h1 with
          | None => None
          | Some (ls'', h2) => Some (l' :: ls'', h2)
          end
      end
  end.

Fixpoint clone_node (fuel : nat) (l : nat) (h : mheap) : option (nat * mheap) :=
  match fuel with
  | O => None
  | S f =>
      match nth_error h l with
      | Some (MText d a) => Some (alloc h (MText d a))
      | Some (MElem n a cs) =>
          match map_heap (clone_node f) cs h with
          | None => None
          | Some (cs', h1) => Some (alloc h1 (MElem n a cs'))
          end
      | _ => None
      end
  end.

Definition clone_deep (l : nat) (h : mheap) : option (nat * mheap) :=
  clone_node (List.length h) l h.

(** [[ ...this.nodes ].map( ( node ) => node.clone( true ) )] *)
Definition clone_all (ls : list nat) (h : mheap) : option (list nat * mheap) :=
  map_heap clone_deep ls h.

(** [clone()] *)
Definition clone_op (op : insert_op) (h : mheap) : option (insert_op * mheap) :=
  match clone_all (io_nodes op) h with
  | None => None
  | Some (ls, h1) =>
      construct (io_position op) (NSList (map INode ls)) (io_baseVersion op) h1
  end.

(** Modelled from the spec: [NodeList#maxOffset], the sum of the offset
    sizes: a text counts its characters, an element counts one. *)
Definition offset_size (h : mheap) (l : nat) : nat :=
  match nth_error h l with
  | Some (MText d _) => String.length d
  | Some (MElem _ _ _) => 1
  | _ => 0
  end.

Definition max_offset (h : mheap) (ls : list nat) : nat :=
  fold_left (fun acc l => acc + offset_size h l) ls 0.

(** [getReversed()]: [new RemoveOperation( this.position,
    this.nodes.maxOffset, this.baseVersion + 1 )]. *)
Definition get_reversed (op : insert_op) (h : mheap) : remove_op :=
  mkRemove (io_position op) (max_offset h (io_nodes op)) (io_baseVersion op + 1).

(** Ranges returned by the writer: a root and two offset paths. *)
Record range : Type := mkRange {
  rg_root : nat;
  rg_start : list nat;
  rg_end : list nat
}.

(** [_execute()]: the clones are taken first and stored in the operation,
    then the writer inserts the original nodes. *)
Definition execute (insert : nat -> list nat -> mheap -> option (range * mheap))
    (op : insert_op) (h : mheap) : option (range * insert_op * mheap) :=
  let originalNodes := io_nodes op in
  match clone_all originalNodes h with
  | None => None
  | Some (clones, h1) =>
      match insert (io_position op) originalNodes h1 with
      | None => None
      | Some (r, h2) =>
          Some (r, mkInsert (io_position op) clones (io_baseVersion op), h2)
      end
  end.

(** Contents of a node: the tree it denotes in a heap. *)
Inductive tree : Type :=
| TText (data : string) (attributes : attrs)
| TElem (name : string) (attributes : attrs) (children : list tree).

Inductive denotes (h : mheap) : nat -> tree -> Prop :=
| den_text l d a :
    nth_error h l = Some (MText d a) -> denotes h l (TText d a)
| den_elem l n a cs ts :
    nth_error h l = Some (MElem n a cs) -> denotes_list h cs ts ->
    denotes h l (TElem n a ts)
with denotes_list (h : mheap) : list nat -> list tree -> Prop :=
| den_nil : denotes_list h [] []
| den_cons l ls t ts :
    denotes h l t -> denotes_list h ls ts -> denotes_list h (l :: ls) (t :: ts).

Scheme denotes_ind2 := Induction for denotes Sort Prop
with denotes_list_ind2 := Induction for denotes_list Sort Prop.
Combined Scheme denotes_mutind from denotes_ind2, denotes_list_ind2.

(** Offset size of a node's contents (a text counts its characters). *)
Definition tree_offset (t : tree) : nat :=
  match t with
  | TText d _ => String.length d
  | TElem _ _ _ => 1
  end.

(** The tree below a location, computed. *)
Fixpoint tree_of (fuel : nat) (h : mheap) (l : nat) : option tree :=
  match fuel with
  | O => None
  | S f =>
      match nth_error h l with
      | Some (MText d a) => Some (TText d a)
      | Some (MElem n a cs) =>
          match fold_right (fun c acc =>
                  match tree_of f h c, acc with
                  | Some t, Some ts => Some (t :: ts)
                  | _, _ => None
                  end) (Some []) cs with
          | Some ts => Some (TElem n a ts)
          | None => None
          end
      | _ => None
      end
  end.

(** Objects reachable from a location through element children. *)
Inductive reachable (h : mheap) : nat -> nat -> Prop :=
| reach_refl l : reachable h l l
| reach_step l n a cs c x :
    nth_error h l = Some (MElem n a cs) -> In c cs -> reachable h c x ->
    reachable h l x.

(** References held by an object. *)
Definition refs (o : mobj) : list nat :=
  match o with
  | MText _ _ => []
  | MElem _ _ cs => cs
  | MPos r _ => [r]
  end.

(** Every reference held in the heap points into it. *)
Definition closed (h : mheap) : Prop :=
  forall l o, nth_error h l = Some o -> forall c, In c (refs o) -> c < List.length h.

Definition closedb (h : mheap) : bool :=
  forallb (fun o => forallb (fun c => Nat.ltb c (List.length h)) (refs o)) h.

(** The objects the writer may touch when inserting [ns] at the position
    [p]: the tree of the position's root and the inserted nodes. *)
Definition footprint (h : mheap) (p : nat) (ns : list nat) (x : nat) : Prop :=
  exists r path, nth_error h p = Some (MPos r path) /\
    (reachable h r x \/ exists n, In n ns /\ reachable h n x).

(** Modelled from the spec: what [writer.insert] may do.  It may mutate
    the target tree and the inserted nodes in place (text merging, child
    lists), may allocate, and leaves every other object alone. *)
Definition insert_frame
    (insert : nat -> list nat -> mheap -> option (range * mheap)) : Prop :=
  forall p ns h r h', insert p ns h = Some (r, h') ->
    List.length h <= List.length h' /\
    forall x, x < List.length h -> ~ footprint h p ns x ->
      nth_error h' x = nth_error h x.

(** Modelled from the spec: [writer.insert( position, nodes )], a concrete
    writer: the nodes are put in the parent's children at the position's
    offset (an offset inside a text node, which would need a split, is not
    modelled), and the range spanning them is returned. *)
Fixpoint index_at (h : mheap) (cs : list nat) (off : nat) : option nat :=
  match off with
  | O => Some O
  | S _ =>
      match cs with
      | [] => None
      | c :: cs' =>
          let s := offset_size h c in
          if Nat.leb s off then option_map S (index_at h cs' (off - s)) else None
      end
  end.

Fixpoint descend (h : mheap) (cur : nat) (path : list nat) : option (nat * nat) :=
  match path with
  | [] => None
  | o :: rest =>
      match rest with
      | [] => Some (cur, o)
      | _ :: _ =>
          match nth_error h cur with
          | Some (MElem _ _ cs) =>
              match index_at h cs o with
              | Some i =>
                  match nth_error cs i with
                  | Some c => descend h c rest
                  | None => None
                  end
              | None => None
              end
          | _ => None
          end
      end
  end.

Definition writer_insert (p : nat) (ns : list nat) (h : mheap)
  : option (range * mheap) :=
  match nth_error h p with
  | Some (MPos r path) =>
      match descend h r path with
      | Some (parent, off) =>
          match nth_error h parent with
          | Some (MElem n a cs) =>
              match index_at h cs off with
              | Some i =>
                  Some (mkRange r path (removelast path ++ [off + max_offset h ns]),
                        set_nth h parent (MElem n a (firstn i cs ++ ns ++ skipn i cs)))
              | None => None
              end
          | _ => None
          end
      | None => None
      end
  | _ => None
  end.

(** Modelled from the spec: JSON values and the serialized forms
    (the [toJSON] methods are not part of the sources).  [JSON.parse] of
    [JSON.stringify] is the identity on these values. *)
Inductive json : Type :=
| JSNull
| JSNum (z : Z)
| JSStr (s : string)
| JSArr (xs : list json)
| JSObj (fs : list (string * json)).

Fixpoint json_get (k : string) (fs : list (string * json)) : option json :=
  match fs with
  | [] => None
  | (k', v) :: fs' => if String.eqb k k' then Some v else json_get k fs'
  end.

(** Truthiness of a property read; [None] is [undefined]. *)
Definition json_truthy (v : option json) : bool :=
  match v with
  | None | Some JSNull => false
  | Some (JSNum z) => negb (Z.eqb z 0)
  | Some (JSStr s) => negb (String.eqb s EmptyString)
  | Some (JSArr _) | Some (JSObj _) => true
  end.

Fixpoint json_size (j : json) : nat :=
  match j with
  | JSArr xs => S (fold_right (fun x acc => json_size x + acc) 0 xs)
  | JSObj fs => S (fold_right (fun kv acc => json_size (snd kv) + acc) 0 fs)
  | _ => 1
  end.

Definition attrs_to_json (a : attrs) : json :=
  JSArr (map (fun kv => JSArr [JSStr (fst kv); JSStr (snd kv)]) a).

Definition attrs_of_json (j : option json) : attrs :=
  match j with
  | Some (JSArr xs) =>
      flat_map (fun x => match x with
                         | JSArr [JSStr k; JSStr v] => [(k, v)]
                         | _ => []
                         end) xs
  | _ => []
  end.

(** Text: [{ data, attributes }]; element: [{ name, attributes, children }]. *)
Fixpoint node_to_json (fuel : nat) (h : mheap) (l : nat) : option json :=
  match fuel with
  | O => None
  | S f =>
      match nth_error h l with
      | Some (MText d a) =>
          Some (JSObj [("data", JSStr d); ("attributes", attrs_to_json a)])
      | Some (MElem n a cs) =>
          match fold_right (fun c acc =>
                  match node_to_json f h c, acc with
                  | Some j, Some js => Some (j :: js)
                  | _, _ => None
                  end) (Some []) cs with
          | Some js =>
              Some (JSObj [("name", JSStr n); ("attributes", attrs_to_json a);
                           ("children", JSArr js)])
          | None => None
          end
      | _ => None
      end
  end.

(** The serialized form of a tree (what [node_to_json] produces). *)
Fixpoint tree_to_json (t : tree) : json :=
  match t with
  | TText d a => JSObj [("data", JSStr d); ("attributes", attrs_to_json a)]
  | TElem n a ts =>
      JSObj [("name", JSStr n); ("attributes", attrs_to_json a);
             ("children", JSArr (map tree_to_json ts))]
  end.

(** A top-level inserted node that [fromJSON] reads back as serialized:
    a text, or an element with a non-empty name. *)
Definition named_top (t : tree) : Prop :=
  match t with TElem n _ _ => n <> "" | TText _ _ => True end.

(** Documents resolve root names to root elements. *)
Record document : Type := mkDocument { roots : list (string * nat) }.

Definition root_name (doc : document) (r : nat) : option string :=
  match find (fun kv => Nat.eqb (snd kv) r) (roots doc) with
  | Some (n, _) => Some n
  | None => None
  end.

Definition get_root (doc : document) (n : string) : option nat :=
  match find (fun kv => String.eqb (fst kv) n) (roots doc) with
  | Some (_, r) => Some r
  | None => None
  end.

Definition position_to_json (doc : document) (h : mheap) (p : nat) : option json :=
  match nth_error h p with
  | Some (MPos r path) =>
      match root_name doc r with
      | Some n => Some (JSObj [("root", JSStr n);
                               ("path", JSArr (map (fun o => JSNum (Z.of_nat o)) path))])
      | None => None
      end
  | _ => None
  end.

Definition op_to_json (doc : document) (op : insert_op) (h : mheap) : option json :=
  match position_to_json doc h (io_position op),
        fold_right (fun l acc =>
          match node_to_json (List.length h) h l, acc with
          | Some j, Some js => Some (j :: js)
          | _, _ => None
          end) (Some []) (io_nodes op) with
  | Some pj, Some njs =>
      Some (JSObj [("__className", JSStr "engine.model.operation.InsertOperation");
                   ("baseVersion", JSNum (io_baseVersion op));
                   ("position", pj); ("nodes", JSArr njs)])
  | _, _ => None
  end.

(** Modelled from the spec: [Text.fromJSON] (a record without [data] gives
    the empty text). *)
Definition text_from_json (j : json) (h : mheap) : option (nat * mheap) :=
  match j with
  | JSObj fs =>
      let d := match json_get "data" fs with Some (JSStr s) => s | _ => EmptyString end in
      Some (alloc h (MText d (attrs_of_json (json_get "attributes" fs))))
  | _ => None
  end.

(** Modelled from the spec: [Element.fromJSON]; children with a [name]
    field are elements, the others texts. *)
Fixpoint element_from_json (fuel : nat) (j : json) (h : mheap) : option (nat * mheap) :=
  match fuel with
  | O => None
  | S f =>
      match j with
      | JSObj fs =>
          let n := match json_get "name" fs with Some (JSStr s) => s | _ => EmptyString end in
          let kids := match json_get "children" fs with Some (JSArr cs) => cs | _ => [] end in
          let decode := fix decode (cs : list json) (h : mheap) : option (list nat * mheap) :=
            match cs with
            | [] => Some ([], h)
            | c :: cs' =>
                let r := match c with
                         | JSObj cfs =>
                             match json_get "name" cfs with
                             | Some _ => element_from_json f c h
                             | None => text_from_json c h
                             end
                         | _ => None
                         end in
                match r with
                | None => None
                | Some (l, h1) =>
                    match decode cs' h1 with
                    | None => None
                    | Some (ls, h2) => Some (l :: ls, h2)
                    end
                end
            end in
          match decode kids h with
          | None => None
          | Some (ls, h1) =>
              Some (alloc h1 (MElem n (attrs_of_json (json_get "attributes" fs)) ls))
          end
      | _ => None
      end
  end.

(** Modelled from the spec: [Position.fromJSON( json, document )]. *)
Definition position_from_json (j : option json) (doc : document) (h : mheap)
  : option (nat * mheap) :=
  match j with
  | Some (JSObj fs) =>
      match json_get "root" fs, json_get "path" fs with
      | Some (JSStr n), Some (JSArr ps) =>
          match get_root doc n with
          | Some r =>
              Some (alloc h (MPos r (flat_map (fun x => match x with
                                                       | JSNum z => [Z.to_nat z]
                                                       | _ => []
                                                       end) ps)))
          | None => None
          end
      | _, _ => None
      end
  | _ => None
  end.

(** [child.name] on a serialized child ([null.name] throws). *)
Definition child_name (child : json) : option (option json) :=
  match child with
  | JSObj fs => Some (json_get "name" fs)
  | JSNull => None
  | _ => Some None
  end.

(** The loop of [fromJSON]: [if ( child.name )] picks [Element.fromJSON],
    otherwise [Text.fromJSON]. *)
Fixpoint decode_children (cs : list json) (h : mheap) : option (list nat * mheap) :=
  match cs with
  | [] => Some ([], h)
  | child :: cs' =>
      match child_name child with
      | None => None
      | Some nm =>
          let r := if json_truthy nm
                   then element_from_json (json_size child) child h
                   else text_from_json child h in
          match r with
          | None => None
          | Some (l, h1) =>
              match decode_children cs' h1 with
              | None => None
              | Some (ls, h2) => Some (l :: ls, h2)
              end
          end
      end
  end.

(** [static fromJSON( json, document )] *)
Definition from_json (j : json) (doc : document) (h : mheap)
  : option (insert_op * mheap) :=
  match j with
  | JSObj fs =>
      match json_get "nodes" fs with
      | Some (JSArr cs) =>
          match decode_children cs h with
          | None => None
          | Some (children, h1) =>
              match position_from_json (json_get "position" fs) doc h1 with
              | None => None
              | Some (p, h2) =>
                  match json_get "baseVersion" fs with
                  | Some (JSNum v) => construct p (NSList (map INode children)) v h2
                  | _ => None
                  end
              end
          end
      | _ => None
      end
  | _ => None
  end.

(** Every object reachable from [l] lies in the heap at or after [b]. *)
Definition fresh_from (b : nat) (h : mheap) (l : nat) : Prop :=
  forall x, reachable h l x -> b <= x /\ x < List.length h.

(** The normalized node list of a node set: nodes are kept, each string is
    a text node holding it. *)
Definition item_matches (h : mheap) (i : nodeitem) (l : nat) : Prop :=
  match i with
  | INode l0 => l = l0
  | IString s => nth_error h l = Some (MText s [])
  end.

Definition normalized (h : mheap) (ns : nodeset) (ls : list nat) : Prop :=
  match ns with
  | NSNode l => ls = [l]
  | NSString s => exists l, ls = [l] /\ nth_error h l = Some (MText s [])
  | NSList items => Forall2 (item_matches h) items ls
  end.

(** Scenario of the spec: a root ["main"] at 0, the position [(root, 0)] at
    1, a text ["ab"] at 2 and an element ["x"] at 3. *)
Definition ex_heap : mheap :=
  [MElem "$root" [] []; MPos 0 [0]; MText "ab" []; MElem "x" [] []].

Definition ex_doc : document := mkDocument [("main", 0)].

(** An operation inserting one element whose name is the empty string. *)
Definition unnamed_heap : mheap :=
  [MElem "$root" [] []; MPos 0 [0]; MElem "" [] []].

Definition unnamed_op : insert_op := mkInsert 1 [2] 0.

(** An operation whose node is already in the document, and whose position
    lies inside that node: the root holds the element [p] (location 2), the
    position is offset 0 inside [p]. *)
Definition nested_heap : mheap :=
  [MElem "$root" [] [2]; MPos 0 [0; 0]; MElem "p" [] []].

Definition nested_op : insert_op := mkInsert 1 [2] 5.

End InsertOp.

(* ================================================================== *)
(** ** Properties of the dispatcher *)
(* ================================================================== *)

Module DispatcherFacts.
Import Dispatcher.

Lemma lookup_set_same k v fs : lookup_field k (set_field k v fs) = v.
Proof.
  induction fs as [|[k' v'] fs IH]; simpl.
  - rewrite String.eqb_refl. reflexivity.
  - destruct (String.eqb k k') eqn:E; simpl.
    + rewrite E. reflexivity.
    + rewrite E. exact IH.
Qed.

Lemma lookup_set_other k k' v fs :
  k <> k' -> lookup_field k (set_field k' v fs) = lookup_field k fs.
Proof.
  intros Hne. induction fs as [|[k1 v1] fs IH]; simpl.
  - apply String.eqb_neq in Hne. rewrite Hne. reflexivity.
  - destruct (String.eqb k' k1) eqn:E1.
    + apply String.eqb_eq in E1. subst k1. simpl.
      apply String.eqb_neq in Hne. rewrite Hne. reflexivity.
    + simpl. destruct (String.eqb k k1); [reflexivity | exact IH].
Qed.

Lemma request_fields_eq h add v :
  request_fields h add v =
  set_field "output" JNull
    (set_field "input" (JView v) (extend_fields [] (source_fields h add))).
Proof. reflexivity. Qed.

Lemma request_output h add v :
  lookup_field "output" (request_fields h add v) = JNull.
Proof. rewrite request_fields_eq. apply lookup_set_same. Qed.

Lemma request_other h add v k :
  k <> "input"%string -> k <> "output"%string ->
  lookup_field k (request_fields h add v) =
  lookup_field k (extend_fields [] (source_fields h add)).
Proof.
  intros H1 H2. rewrite request_fields_eq.
  rewrite lookup_set_other by exact H2. apply lookup_set_other. exact H1.
Qed.

Lemma nth_error_snoc {A} (l : list A) (x : A) :
  nth_error (l ++ [x]) (List.length l) = Some x.
Proof. rewrite nth_error_app2 by lia. rewrite Nat.sub_diag. reflexivity. Qed.

Lemma flatten_results_app h rs acc :
  fold_left (fun a b => if truthy b then a ++ spread h b else a) rs acc =
  acc ++ flat_map (contribution h) rs.
Proof.
  revert acc. induction rs as [|b rs IH]; intros acc; simpl.
  - rewrite app_nil_r. reflexivity.
  - rewrite IH. unfold contribution. destruct (truthy b).
    + rewrite app_assoc. reflexivity.
    + reflexivity.
Qed.

Lemma flatten_results_flat_map h rs :
  flatten_results h rs = flat_map (contribution h) rs.
Proof. unfold flatten_results. rewrite flatten_results_app. reflexivity. Qed.

Section Facts.
Variable listeners : string -> list listener.
Variable cleanup_listeners : list (vitem -> heap -> heap).

Lemma convert_item_S f v c add w :
  convert_item listeners (S f) v c add w =
  match run_listeners (run_prog (convert_item listeners f))
          (listeners (event_name v)) (List.length (w_heap w)) c
          (mkWorld (w_heap w ++ [ORec (request_fields (w_heap w) add v)])
                   (w_trackers w) []) with
  | None => None
  | Some w2 =>
      Some (read_output (w_heap w2) (List.length (w_heap w)),
            mkWorld (w_heap w2) (w_trackers w2)
                    (w_trace w ++ [EFired (event_name v) v (w_trace w2)]))
  end.
Proof. reflexivity. Qed.

Lemma convert_item_inv f v c add w o w' :
  convert_item listeners f v c add w = Some (o, w') ->
  exists f' w2, f = S f' /\
    run_listeners (run_prog (convert_item listeners f'))
      (listeners (event_name v)) (List.length (w_heap w)) c
      (mkWorld (w_heap w ++ [ORec (request_fields (w_heap w) add v)])
               (w_trackers w) []) = Some w2 /\
    o = read_output (w_heap w2) (List.length (w_heap w)) /\
    w' = mkWorld (w_heap w2) (w_trackers w2)
                 (w_trace w ++ [EFired (event_name v) v (w_trace w2)]).
Proof.
  destruct f as [|f]; [discriminate|]. rewrite convert_item_S.
  destruct (run_listeners _ _ _ _ _) as [w2|] eqn:E; [|discriminate].
  intros H. injection H as <- <-. exists f, w2. auto.
Qed.

Lemma convert_children_decomp f v c add w r w' :
  convert_children listeners f v c add w = Some (r, w') ->
  exists kids rs w1,
    view_children v = Some kids /\
    map_world (fun x => convert_item listeners f x c add) kids w = Some (rs, w1) /\
    r = JRef (List.length (w_heap w1)) /\
    w' = set_heap (w_heap w1 ++ [OArr (flat_map (contribution (w_heap w1)) rs)]) w1.
Proof.
  unfold convert_children, children_with.
  destruct (view_children v) as [kids|]; [|discriminate].
  destruct (map_world _ kids w) as [[rs w1]|] eqn:E; [|discriminate].
  intros H. injection H as <- <-. exists kids, rs, w1.
  rewrite flatten_results_flat_map. auto.
Qed.

(** C1: every call of [_convertItem] fires exactly one event, chosen by the
    runtime kind of the input ([element:<name>], [text], [documentFragment]),
    and runs exactly the listeners of that event; events of different kinds
    have different names. *)
Theorem convert_item_fires_one_event f v c add w o w' :
  convert_item listeners (S f) v c add w = Some (o, w') ->
  (exists w2,
     run_listeners (run_prog (convert_item listeners f))
       (listeners (event_name v)) (List.length (w_heap w)) c
       (mkWorld (w_heap w ++ [ORec (request_fields (w_heap w) add v)])
                (w_trackers w) []) = Some w2 /\
     w_trace w' = w_trace w ++ [EFired (event_name v) v (w_trace w2)]) /\
  match v with
  | VElement n _ => event_name v = String.append "element:" n
  | VText _ => event_name v = "text"%string
  | VFragment _ => event_name v = "documentFragment"%string
  end /\
  (forall v', kind_of v' <> kind_of v -> event_name v' <> event_name v).
Proof.
  intros H. split; [|split].
  - rewrite convert_item_S in H.
    destruct (run_listeners _ _ _ _ _) as [w2|]; [|discriminate].
    injection H as _ <-. exists w2. auto.
  - destruct v; reflexivity.
  - intros v' Hk. destruct v, v'; simpl in *; try congruence; discriminate.
Qed.

(** C4: [_convertChildren] converts the children in document order, each
    with [_convertItem] and the same consumable and additional data; each
    child gets a fresh record (a new heap object) whose [output] starts null
    and whose other fields are a shallow copy of the additional data; the
    results are concatenated in order with null results left out, so
    children producing [A, null, B] give [A, B]. *)
Theorem convert_children_in_order f v c add w r w' :
  convert_children listeners f v c add w = Some (r, w') ->
  (exists kids rs w1,
     view_children v = Some kids /\
     map_world (fun x => convert_item listeners f x c add) kids w = Some (rs, w1) /\
     r = JRef (List.length (w_heap w1)) /\
     w_heap w' = w_heap w1 ++ [OArr (flat_map (contribution (w_heap w1)) rs)]) /\
  (forall x w0 o w0',
     convert_item listeners f x c add w0 = Some (o, w0') ->
     exists f' w2, f = S f' /\
       run_listeners (run_prog (convert_item listeners f'))
         (listeners (event_name x)) (List.length (w_heap w0)) c
         (mkWorld (w_heap w0 ++ [ORec (request_fields (w_heap w0) add x)])
                  (w_trackers w0) []) = Some w2 /\
       o = read_output (w_heap w2) (List.length (w_heap w0))) /\
  (forall h x,
     lookup_field "output" (request_fields h add x) = JNull /\
     forall k, k <> "input"%string -> k <> "output"%string ->
       lookup_field k (request_fields h add x) =
       lookup_field k (extend_fields [] (source_fields h add))) /\
  (forall h A B, truthy A = true -> truthy B = true ->
     spread h A = [A] -> spread h B = [B] ->
     flat_map (contribution h) [A; JNull; B] = [A; B]).
Proof.
  intros H. split; [|split; [|split]].
  - destruct (convert_children_decomp _ _ _ _ _ _ _ H)
      as (kids & rs & w1 & Hk & Hm & Hr & Hw).
    exists kids, rs, w1. subst w'. simpl. auto.
  - intros x w0 o w0' Hx.
    destruct (convert_item_inv _ _ _ _ _ _ _ Hx)
      as (f' & w2 & Hf & Hrun & Ho & _).
    exists f', w2. auto.
  - intros h x. split; [apply request_output|]. intros k H1 H2.
    apply request_other; assumption.
  - intros h A B HA HB SA SB. simpl. unfold contribution.
    rewrite HA, HB, SA, SB. reflexivity.
Qed.

(** C6: [convert] fires [viewCleanup] with the raw view item first, then
    builds the consumable from the whole subtree, then converts the item:
    every conversion event of the call is logged after both. *)
Theorem convert_cleanup_first f v add w o w' :
  convert listeners cleanup_listeners f v add w = Some (o, w') ->
  (exists during,
     w_trace w' = w_trace w ++ [ECleanup v; ECreated v; EFired (event_name v) v during]) /\
  convert listeners cleanup_listeners f v add w =
  convert_item listeners f v (List.length (w_trackers w)) add
    (mkWorld (fold_left (fun h l => l v h) cleanup_listeners (w_heap w))
             (w_trackers w ++ [subtree v])
             (w_trace w ++ [ECleanup v; ECreated v])).
Proof.
  assert (E : convert listeners cleanup_listeners f v add w =
    convert_item listeners f v (List.length (w_trackers w)) add
      (mkWorld (fold_left (fun h l => l v h) cleanup_listeners (w_heap w))
               (w_trackers w ++ [subtree v])
               (w_trace w ++ [ECleanup v; ECreated v]))).
  { unfold convert. simpl. rewrite <- app_assoc. reflexivity. }
  intros H. split; [|exact E].
  rewrite E in H. destruct (convert_item_inv _ _ _ _ _ _ _ H)
    as (f' & w2 & _ & _ & _ & Hw). subst w'. simpl.
  exists (w_trace w2). rewrite <- app_assoc. reflexivity.
Qed.

(** C7 (amended): [_convertItem] returns [data.output] as it stands after
    all listeners of the selected event have run, whether or not any of them
    consumed the item; with no listener for that event it returns null and
    raises nothing. *)
Theorem convert_item_returns_output f v c add w :
  (forall o w', convert_item listeners (S f) v c add w = Some (o, w') ->
     exists w2,
       run_listeners (run_prog (convert_item listeners f))
         (listeners (event_name v)) (List.length (w_heap w)) c
         (mkWorld (w_heap w ++ [ORec (request_fields (w_heap w) add v)])
                  (w_trackers w) []) = Some w2 /\
       o = read_output (w_heap w2) (List.length (w_heap w))) /\
  (listeners (event_name v) = [] ->
     convert_item listeners (S f) v c add w =
     Some (JNull, mkWorld (w_heap w ++ [ORec (request_fields (w_heap w) add v)])
                          (w_trackers w)
                          (w_trace w ++ [EFired (event_name v) v []]))).
Proof.
  split.
  - intros o w' H. destruct (convert_item_inv _ _ _ _ _ _ _ H)
      as (f' & w2 & Hf & Hrun & Ho & _).
    injection Hf as <-. exists w2. auto.
  - intros Hnil. rewrite convert_item_S, Hnil. simpl.
    unfold read_output. rewrite nth_error_snoc, request_output. reflexivity.
Qed.

(** C10: [_convertChildren] keeps a child result only when it is truthy:
    null, undefined, false, 0 and the empty string all contribute nothing; a
    truthy array result is spread one level into the result (its elements
    are kept as they are), any other truthy result is kept as one element. *)
Theorem convert_children_truthiness f v c add w r w' :
  convert_children listeners f v c add w = Some (r, w') ->
  (exists kids rs w1,
     view_children v = Some kids /\
     map_world (fun x => convert_item listeners f x c add) kids w = Some (rs, w1) /\
     r = JRef (List.length (w_heap w1)) /\
     w_heap w' = w_heap w1 ++ [OArr (flat_map (contribution (w_heap w1)) rs)]) /\
  (forall h b, truthy b = false -> contribution h b = []) /\
  (forall b, In b [JNull; JUndef; JBool false; JNum 0; JStr ""] -> truthy b = false) /\
  (forall h l xs, nth_error h l = Some (OArr xs) -> contribution h (JRef l) = xs) /\
  (forall h b, truthy b = true ->
     (forall l, b = JRef l -> forall xs, nth_error h l <> Some (OArr xs)) ->
     contribution h b = [b]).
Proof.
  intros H. split; [|split; [|split; [|split]]].
  - destruct (convert_children_decomp _ _ _ _ _ _ _ H)
      as (kids & rs & w1 & Hk & Hm & Hr & Hw).
    exists kids, rs, w1. subst w'. simpl. auto.
  - intros h b Hb. unfold contribution. rewrite Hb. reflexivity.
  - intros b Hin. simpl in Hin.
    repeat (destruct Hin as [<- | Hin]; [reflexivity|]). contradiction.
  - intros h l xs Hl. unfold contribution, spread. simpl. rewrite Hl. reflexivity.
  - intros h b Hb Hna. unfold contribution. rewrite Hb. unfold spread.
    destruct b; try reflexivity.
    destruct (nth_error h l) as [[xs|fs]|] eqn:E; try reflexivity.
    exfalso. exact (Hna l eq_refl xs E).
Qed.

End Facts.

(** Runs a concrete conversion and instantiates its result. *)
Ltac run_scenario :=
  lazymatch goal with
  | |- exists a b, ?e = Some (a, b) /\ _ =>
      let r := eval vm_compute in e in
      lazymatch r with
      | Some (?o, ?w) => exists o, w; split; [vm_compute; reflexivity|]
      end
  end.

(** Witnesses at the paragraph scenario and with no listeners. *)
Lemma convert_item_fires_one_event_witness :
  exists o w',
    convert_item para_listeners 3 para_item 0 JUndef para_world = Some (o, w') /\
    exists during,
      w_trace w' = w_trace para_world ++ [EFired "element:p" para_item during].
Proof.
  run_scenario.
  destruct (convert_item_fires_one_event para_listeners 2 para_item 0 JUndef
              para_world _ _ ltac:(vm_compute; reflexivity)) as [[w2 [_ Ht]] _].
  exists (w_trace w2). exact Ht.
Defined.

Lemma convert_children_in_order_witness :
  exists r w',
    convert_children para_listeners 2 para_item 0 JUndef para_world = Some (r, w') /\
    exists kids rs w1,
      view_children para_item = Some kids /\
      map_world (fun x => convert_item para_listeners 2 x 0 JUndef) kids para_world
        = Some (rs, w1) /\
      r = JRef (List.length (w_heap w1)) /\
      w_heap w' = w_heap w1 ++ [OArr (flat_map (contribution (w_heap w1)) rs)].
Proof.
  run_scenario.
  exact (proj1 (convert_children_in_order para_listeners 2 para_item 0 JUndef
                  para_world _ _ ltac:(vm_compute; reflexivity))).
Defined.

Lemma convert_cleanup_first_witness :
  exists o w',
    convert para_listeners [] 3 para_item JUndef empty_world = Some (o, w') /\
    exists during,
      w_trace w' = [ECleanup para_item; ECreated para_item;
                    EFired (event_name para_item) para_item during].
Proof.
  run_scenario.
  exact (proj1 (convert_cleanup_first para_listeners [] 3 para_item JUndef
                  empty_world _ _ ltac:(vm_compute; reflexivity))).
Defined.

Lemma convert_item_returns_output_witness :
  no_listeners (event_name (VText "a")) = [] /\
  convert_item no_listeners 1 (VText "a") 0 JUndef empty_world =
  Some (JNull, mkWorld [ORec (request_fields [] JUndef (VText "a"))] []
                       [EFired "text" (VText "a") []]).
Proof.
  split; [reflexivity|].
  exact (proj2 (convert_item_returns_output no_listeners 0 (VText "a") 0 JUndef
                  empty_world) ltac:(vm_compute; reflexivity)).
Defined.

Lemma convert_children_truthiness_witness :
  exists r w',
    convert_children para_listeners 2 para_item 0 JUndef para_world = Some (r, w') /\
    exists kids rs w1,
      view_children para_item = Some kids /\
      map_world (fun x => convert_item para_listeners 2 x 0 JUndef) kids para_world
        = Some (rs, w1) /\
      r = JRef (List.length (w_heap w1)) /\
      w_heap w' = w_heap w1 ++ [OArr (flat_map (contribution (w_heap w1)) rs)].
Proof.
  run_scenario.
  exact (proj1 (convert_children_truthiness para_listeners 2 para_item 0 JUndef
                  para_world _ _ ltac:(vm_compute; reflexivity))).
Defined.

(** C7, counterexample: a [text] listener that sets [data.output] without
    consuming anything; the item stays unconsumed in the tracker, yet the
    result is 1, not null. *)
Lemma convert_item_output_without_consume :
  exists o w',
    convert_item output_without_consume 1 (VText "a") 0 JUndef
      (mkWorld [] [[VText "a"]] []) = Some (o, w') /\
    w_trackers w' = [[VText "a"]] /\ o = JNum 1 /\ o <> JNull.
Proof.
  run_scenario. split; [reflexivity|].
  split; [reflexivity|]. discriminate.
Qed.


End DispatcherFacts.

(* ================================================================== *)
(** ** Properties of InsertOperation *)
(* ================================================================== *)

Module InsertOpFacts.
Import InsertOp.
Local Open Scope string_scope.
Local Open Scope list_scope.

Lemma nth_lt {A} (h : list A) l o : nth_error h l = Some o -> l < List.length h.
Proof. intros H. apply nth_error_Some. rewrite H. discriminate. Qed.

Lemma nth_app_l {A} (h e : list A) l o :
  nth_error h l = Some o -> nth_error (h ++ e) l = Some o.
Proof. intros H. rewrite nth_error_app1 by (eapply nth_lt; eauto). exact H. Qed.

Lemma nth_snoc {A} (h : list A) x : nth_error (h ++ [x]) (List.length h) = Some x.
Proof. rewrite nth_error_app2 by lia. rewrite Nat.sub_diag. reflexivity. Qed.

Lemma set_nth_other {A} (h : list A) n m x :
  n <> m -> nth_error (set_nth h n x) m = nth_error h m.
Proof.
  revert n m. induction h as [|y h IH]; intros n m Hne; [reflexivity|].
  destruct n, m; simpl; try reflexivity; try congruence.
  apply IH. lia.
Qed.

Lemma set_nth_length {A} (h : list A) n x : List.length (set_nth h n x) = List.length h.
Proof.
  revert n. induction h as [|y h IH]; intros n; [reflexivity|].
  destruct n; simpl; [reflexivity|]. rewrite IH. reflexivity.
Qed.

Lemma closedb_closed h : closedb h = true -> closed h.
Proof.
  unfold closedb, closed. intros H l o Hl c Hc.
  rewrite forallb_forall in H. specialize (H o (nth_error_In _ _ Hl)).
  rewrite forallb_forall in H. apply Nat.ltb_lt. exact (H c Hc).
Qed.

(** Reachability. *)
Lemma reach_trans h a b c :
  reachable h a b -> reachable h b c -> reachable h a c.
Proof.
  induction 1 as [l|l n a0 cs c0 x Hl Hin Hr IH]; intros Hbc; [exact Hbc|].
  eapply reach_step; eauto.
Qed.

Lemma reach_ext_inv h e l x :
  (forall y, reachable h l y -> y < List.length h) ->
  reachable (h ++ e) l x -> reachable h l x.
Proof.
  intros Hb Hr. induction Hr as [l|l n a cs c x Hl Hin Hr IH].
  - apply reach_refl.
  - assert (Hl' : nth_error h l = Some (MElem n a cs)).
    { rewrite nth_error_app1 in Hl; [exact Hl|]. apply Hb, reach_refl. }
    assert (Hc : reachable h l c).
    { eapply reach_step; eauto using reach_refl. }
    eapply reach_step; eauto. apply IH.
    intros y Hy. apply Hb. eapply reach_trans; eauto.
Qed.

Lemma closed_reach_bound h l x :
  closed h -> l < List.length h -> reachable h l x -> x < List.length h.
Proof.
  intros Hc Hl Hr. induction Hr as [l|l n a cs c x Hn Hin Hr IH]; [exact Hl|].
  apply IH. exact (Hc l _ Hn c Hin).
Qed.

Lemma closed_reach h e l x :
  closed h -> l < List.length h -> reachable (h ++ e) l x ->
  reachable h l x /\ x < List.length h.
Proof.
  intros Hc Hl Hr.
  assert (Hr' : reachable h l x).
  { eapply reach_ext_inv; [|exact Hr]. intros y Hy.
    eapply closed_reach_bound; eauto. }
  split; [exact Hr'|]. eapply closed_reach_bound; eauto.
Qed.

Lemma reach_frame h h' c x :
  (forall y, reachable h c y -> nth_error h' y = nth_error h y) ->
  reachable h' c x -> reachable h c x.
Proof.
  intros Hu Hr. induction Hr as [l|l n a cs c0 x Hl Hin Hr IH].
  - apply reach_refl.
  - assert (Hl' : nth_error h l = Some (MElem n a cs)).
    { rewrite <- Hu by apply reach_refl. exact Hl. }
    assert (Hc : reachable h l c0) by (eapply reach_step; eauto using reach_refl).
    eapply reach_step; eauto. apply IH. intros y Hy. apply Hu.
    eapply reach_trans; eauto.
Qed.

(** Denotations. *)
Lemma denotes_mono h e :
  (forall l t, denotes h l t -> denotes (h ++ e) l t) /\
  (forall ls ts, denotes_list h ls ts -> denotes_list (h ++ e) ls ts).
Proof.
  apply denotes_mutind; intros.
  - apply den_text. apply nth_app_l. assumption.
  - eapply den_elem; [apply nth_app_l; eassumption | assumption].
  - apply den_nil.
  - apply den_cons; assumption.
Qed.

Lemma denotes_frame h h' :
  (forall l t, denotes h l t ->
     (forall x, reachable h l x -> nth_error h' x = nth_error h x) ->
     denotes h' l t) /\
  (forall ls ts, denotes_list h ls ts ->
     (forall l x, In l ls -> reachable h l x -> nth_error h' x = nth_error h x) ->
     denotes_list h' ls ts).
Proof.
  apply denotes_mutind.
  - intros l d a Hl Hu. apply den_text. rewrite Hu by apply reach_refl. exact Hl.
  - intros l n a cs ts Hl Hd IH Hu. eapply den_elem.
    + rewrite Hu by apply reach_refl. exact Hl.
    + apply IH. intros c x Hin Hr. apply Hu. eapply reach_step; eauto.
  - intros _. apply den_nil.
  - intros l ls t ts Hd IH1 Hds IH2 Hu. apply den_cons.
    + apply IH1. intros x Hr. apply (Hu l); [left; reflexivity | exact Hr].
    + apply IH2. intros l' x Hin Hr. apply (Hu l'); [right; exact Hin | exact Hr].
Qed.

Lemma reach_inv h l x :
  reachable h l x ->
  x = l \/ exists n a cs c, nth_error h l = Some (MElem n a cs) /\ In c cs /\ reachable h c x.
Proof.
  destruct 1 as [l|l n a cs c x Hl Hin Hr]; [left; reflexivity|].
  right. exists n, a, cs, c. auto.
Qed.

Lemma fresh_ext b h e l : fresh_from b h l -> fresh_from b (h ++ e) l.
Proof.
  intros Hf x Hr. apply reach_ext_inv in Hr; [|intros y Hy; apply Hf, Hy].
  destruct (Hf x Hr). rewrite length_app. lia.
Qed.

Lemma fresh_weaken b b' h l : b' <= b -> fresh_from b h l -> fresh_from b' h l.
Proof. intros Hb Hf x Hr. destruct (Hf x Hr). lia. Qed.

(** Copying a list of nodes, one at a time, with a copier that produces
    fresh trees equal to the originals. *)
Lemma map_heap_clone_spec (g : nat -> mheap -> option (nat * mheap))
  (Hg : forall h0 e0 l l' h', closed h0 -> l < List.length h0 ->
     g l (h0 ++ e0) = Some (l', h') ->
     (exists e, h' = h0 ++ e0 ++ e) /\
     (exists t, denotes h0 l t /\ denotes h' l' t) /\
     fresh_from (List.length (h0 ++ e0)) h' l') :
  forall ls h0 e0 ls' h', closed h0 -> Forall (fun l => l < List.length h0) ls ->
    map_heap g ls (h0 ++ e0) = Some (ls', h') ->
    (exists e, h' = h0 ++ e0 ++ e) /\
    (exists ts, denotes_list h0 ls ts /\ denotes_list h' ls' ts) /\
    Forall (fresh_from (List.length (h0 ++ e0)) h') ls'.
Proof.
  induction ls as [|l ls IH]; intros h0 e0 ls' h' Hc Hlt H; simpl in H.
  - injection H as <- <-. split; [exists []; rewrite app_nil_r; reflexivity|].
    split; [exists []; split; apply den_nil | constructor].
  - destruct (g l (h0 ++ e0)) as [[l1 h1]|] eqn:E1; [|discriminate].
    destruct (map_heap g ls h1) as [[ls1 h2]|] eqn:E2; [|discriminate].
    injection H as <- <-. inversion Hlt as [|? ? Hl Hls]; subst.
    destruct (Hg _ _ _ _ _ Hc Hl E1) as ([e1 ->] & (t & Ht0 & Ht1) & Hf1).
    destruct (IH h0 (e0 ++ e1) _ _ Hc Hls E2) as ([e2 ->] & (ts & Hd0 & Hd1) & Hf2).
    replace (h0 ++ (e0 ++ e1) ++ e2) with ((h0 ++ e0 ++ e1) ++ e2) in *
      by (rewrite !app_assoc; reflexivity).
    split; [exists (e1 ++ e2); rewrite !app_assoc; reflexivity|].
    split.
    + exists (t :: ts). split; apply den_cons; auto.
      apply (proj1 (denotes_mono _ _)); exact Ht1.
    + constructor; [apply fresh_ext; exact Hf1|].
      eapply Forall_impl; [|exact Hf2]. intros c. apply fresh_weaken.
      rewrite !length_app. lia.
Qed.

Lemma clone_node_spec f : forall h0 e0 l l' h', closed h0 -> l < List.length h0 ->
  clone_node f l (h0 ++ e0) = Some (l', h') ->
  (exists e, h' = h0 ++ e0 ++ e) /\
  (exists t, denotes h0 l t /\ denotes h' l' t) /\
  fresh_from (List.length (h0 ++ e0)) h' l'.
Proof.
  induction f as [|f IHf]; intros h0 e0 l l' h' Hc Hl H; [discriminate|].
  simpl in H. rewrite nth_error_app1 in H by exact Hl.
  destruct (nth_error h0 l) as [[d a|n a cs|r p]|] eqn:El; try discriminate.
  - injection H as <- <-.
    split; [exists [MText d a]; rewrite <- app_assoc; reflexivity|].
    split; [exists (TText d a); split; apply den_text; [exact El | apply nth_snoc]|].
    intros x Hr. apply reach_inv in Hr.
    destruct Hr as [-> | (n & a' & cs & c & Hn & _ & _)].
    + rewrite !length_app. simpl. lia.
    + rewrite nth_snoc in Hn. discriminate.
  - destruct (map_heap (clone_node f) cs (h0 ++ e0)) as [[cs' h1]|] eqn:Em;
      [|discriminate].
    injection H as <- <-.
    assert (Hcs : Forall (fun c => c < List.length h0) cs).
    { apply Forall_forall. intros c Hin. exact (Hc l _ El c Hin). }
    destruct (map_heap_clone_spec (clone_node f) IHf cs h0 e0 cs' h1 Hc Hcs Em)
      as ([e1 ->] & (ts & Hd0 & Hd1) & Hf1).
    split; [exists (e1 ++ [MElem n a cs']); rewrite <- !app_assoc; reflexivity|].
    split.
    + exists (TElem n a ts). split; [eapply den_elem; eauto|].
      eapply den_elem; [apply nth_snoc|]. apply (proj2 (denotes_mono _ _)). exact Hd1.
    + intros x Hr. apply reach_inv in Hr.
      destruct Hr as [-> | (n' & a' & cs0 & c & Hn & Hin & Hr)].
      * rewrite !length_app. simpl. lia.
      * rewrite nth_snoc in Hn. injection Hn as <- <- <-.
        rewrite Forall_forall in Hf1.
        destruct (fresh_ext _ _ [MElem n a cs'] _ (Hf1 c Hin) x Hr) as [H1 H2].
        split; [exact H1|]. exact H2.
Qed.

Lemma clone_all_spec h ls ls' h' :
  closed h -> Forall (fun l => l < List.length h) ls ->
  clone_all ls h = Some (ls', h') ->
  (exists e, h' = h ++ e) /\
  (exists ts, denotes_list h ls ts /\ denotes_list h' ls' ts) /\
  Forall (fresh_from (List.length h) h') ls'.
Proof.
  intros Hc Hls H.
  assert (Hg : forall h0 e0 l l' h', closed h0 -> l < List.length h0 ->
     clone_deep l (h0 ++ e0) = Some (l', h') ->
     (exists e, h' = h0 ++ e0 ++ e) /\
     (exists t, denotes h0 l t /\ denotes h' l' t) /\
     fresh_from (List.length (h0 ++ e0)) h' l').
  { intros h0 e0 l l' h1 Hc0 Hl0 Hcl. eapply clone_node_spec; eauto. }
  unfold clone_all in H. rewrite <- (app_nil_r h) in H.
  destruct (map_heap_clone_spec clone_deep Hg ls h [] ls' h' Hc Hls H)
    as (Hp & Hd & Hf).
  rewrite app_nil_r in Hf. split; [|split; [exact Hd | exact Hf]].
  exact Hp.
Qed.

(** Copies only allocate. *)
Lemma map_heap_prefix (g : nat -> mheap -> option (nat * mheap))
  (Hg : forall l h l' h', g l h = Some (l', h') -> exists e, h' = h ++ e) :
  forall ls h ls' h', map_heap g ls h = Some (ls', h') -> exists e, h' = h ++ e.
Proof.
  induction ls as [|l ls IH]; intros h ls' h' H; simpl in H.
  - injection H as _ <-. exists []. rewrite app_nil_r. reflexivity.
  - destruct (g l h) as [[l1 h1]|] eqn:E1; [|discriminate].
    destruct (map_heap g ls h1) as [[ls1 h2]|] eqn:E2; [|discriminate].
    injection H as _ <-. destruct (Hg _ _ _ _ E1) as [e1 ->].
    destruct (IH _ _ _ E2) as [e2 ->]. exists (e1 ++ e2). rewrite <- app_assoc; reflexivity.
Qed.

Lemma clone_node_prefix f : forall l h l' h',
  clone_node f l h = Some (l', h') -> exists e, h' = h ++ e.
Proof.
  induction f as [|f IHf]; intros l h l' h' H; [discriminate|].
  simpl in H. destruct (nth_error h l) as [[d a|n a cs|r p]|]; try discriminate.
  - injection H as _ <-. eexists. reflexivity.
  - destruct (map_heap (clone_node f) cs h) as [[cs' h1]|] eqn:Em; [|discriminate].
    injection H as _ <-. destruct (map_heap_prefix _ IHf _ _ _ _ Em) as [e ->].
    exists (e ++ [MElem n a cs']). rewrite <- app_assoc; reflexivity.
Qed.

Lemma clone_all_prefix ls h ls' h' :
  clone_all ls h = Some (ls', h') -> exists e, h' = h ++ e.
Proof.
  apply map_heap_prefix. intros l h0 l' h1. apply clone_node_prefix.
Qed.

(** Normalization keeps nodes and allocates text nodes for strings. *)
Lemma normalize_items_nodes ls h : normalize_items (map INode ls) h = (ls, h).
Proof. induction ls as [|l ls IH]; simpl; [reflexivity|]. rewrite IH. reflexivity. Qed.

Lemma normalize_items_spec items : forall h ls h',
  normalize_items items h = (ls, h') ->
  (exists e, h' = h ++ e) /\ Forall2 (item_matches h') items ls.
Proof.
  induction items as [|i items IH]; intros h ls h' H; simpl in H.
  - injection H as <- <-. split; [exists []; rewrite app_nil_r; reflexivity | constructor].
  - destruct (normalize_item h i) as [l h1] eqn:Ei.
    destruct (normalize_items items h1) as [ls1 h2] eqn:Er.
    injection H as <- <-. destruct (IH _ _ _ Er) as [[e2 ->] Hm].
    destruct i as [l0|s]; simpl in Ei; injection Ei as <- <-.
    + split; [exists e2; reflexivity|]. constructor; [reflexivity | exact Hm].
    + split; [exists ([MText s []] ++ e2); rewrite <- app_assoc; reflexivity|].
      constructor; [|exact Hm]. simpl. apply nth_app_l, nth_snoc.
Qed.

Lemma normalize_nodes_spec ns h ls h' :
  normalize_nodes ns h = (ls, h') ->
  (exists e, h' = h ++ e) /\ normalized h' ns ls.
Proof.
  destruct ns as [l|s|items]; simpl; intros H.
  - injection H as <- <-. split; [exists []; rewrite app_nil_r|]; reflexivity.
  - injection H as <- <-. split; [eexists; reflexivity|].
    exists (List.length h). split; [reflexivity | apply nth_snoc].
  - exact (normalize_items_spec _ _ _ _ H).
Qed.

(** The concrete writer only rewrites the parent element, which lies in the
    tree of the position's root. *)
Lemma descend_reach h path : forall cur parent off,
  descend h cur path = Some (parent, off) -> reachable h cur parent.
Proof.
  induction path as [|o rest IH]; intros cur parent off H; simpl in H; [discriminate|].
  destruct rest as [|o' rest'].
  - injection H as <- _. apply reach_refl.
  - destruct (nth_error h cur) as [[d a|n a cs|r p]|] eqn:E; try discriminate.
    destruct (index_at h cs o) as [i|]; [|discriminate].
    destruct (nth_error cs i) as [c|] eqn:Ec; [|discriminate].
    eapply reach_step; [exact E | eapply nth_error_In; exact Ec | exact (IH _ _ _ H)].
Qed.

Lemma writer_insert_frame : insert_frame writer_insert.
Proof.
  unfold insert_frame, writer_insert. intros p ns h r h' H.
  destruct (nth_error h p) as [[d a|n a cs|rt path]|] eqn:Ep; try discriminate.
  destruct (descend h rt path) as [[parent off]|] eqn:Ed; [|discriminate].
  destruct (nth_error h parent) as [[d a|n a cs|r0 p0]|] eqn:Epa; try discriminate.
  destruct (index_at h cs off) as [i|]; [|discriminate].
  injection H as _ <-. split; [rewrite set_nth_length; lia|].
  intros x Hx Hnf. destruct (Nat.eq_dec parent x) as [<-|Hne].
  - exfalso. apply Hnf. exists rt, path. split; [exact Ep|].
    left. eapply descend_reach; eauto.
  - apply set_nth_other. exact Hne.
Qed.

(** Offsets of denoted nodes. *)
Lemma offset_size_denotes h l t : denotes h l t -> offset_size h l = tree_offset t.
Proof.
  destruct 1 as [l d a Hl|l n a cs ts Hl _]; unfold offset_size; rewrite Hl; reflexivity.
Qed.

Lemma max_offset_denotes h ls ts :
  denotes_list h ls ts -> max_offset h ls = list_sum (map tree_offset ts).
Proof.
  unfold max_offset. intros Hd.
  assert (G : forall a, fold_left (fun acc l => acc + offset_size h l) ls a =
                        a + list_sum (map tree_offset ts)).
  { induction Hd as [|l ls t ts Ht Hds IH]; intros a; simpl; [lia|].
    rewrite IH, (offset_size_denotes _ _ _ Ht). lia. }
  rewrite G. reflexivity.
Qed.

Ltac run_op :=
  lazymatch goal with
  | |- exists a b, ?e = Some (a, b) /\ _ =>
      let v := eval vm_compute in e in
      lazymatch v with
      | Some (?x, ?y) => exists x, y; split; [vm_compute; reflexivity|]
      end
  end.

Ltac run_op3 :=
  lazymatch goal with
  | |- exists a b c, ?e = Some (a, b, c) /\ _ =>
      let v := eval vm_compute in e in
      lazymatch v with
      | Some (?x, ?y, ?z) => exists x, y, z; split; [vm_compute; reflexivity|]
      end
  end.

Lemma forallb_lt_Forall (ls : list nat) n :
  forallb (fun l => Nat.ltb l n) ls = true -> Forall (fun l => l < n) ls.
Proof.
  intros H. apply Forall_forall. intros l Hin. rewrite forallb_forall in H.
  apply Nat.ltb_lt. exact (H l Hin).
Qed.

(** C8: the constructor stores an owned copy of the position, at a new
    location holding the same value, so changing the caller's position
    object afterwards leaves the operation's position unchanged; the nodes
    are normalized (nodes kept, strings turned into text nodes, in order)
    and the base version is stored as given. *)
Theorem construct_owns_position p ns v h op h' :
  construct p ns v h = Some (op, h') ->
  io_position op = List.length h /\ io_position op <> p /\
  io_baseVersion op = v /\
  (exists rt path, nth_error h p = Some (MPos rt path) /\
     nth_error h' (io_position op) = Some (MPos rt path) /\
     normalize_nodes ns (h ++ [MPos rt path]) = (io_nodes op, h')) /\
  normalized h' ns (io_nodes op) /\
  (forall o, nth_error (set_nth h' p o) (io_position op) =
             nth_error h' (io_position op)).
Proof.
  unfold construct, create_from_position. intros H.
  destruct (nth_error h p) as [[d a|n a cs|rt path]|] eqn:Ep; try discriminate.
  simpl in H.
  destruct (normalize_nodes ns (h ++ [MPos rt path])) as [ls h2] eqn:En.
  injection H as <- <-. simpl.
  pose proof (nth_lt _ _ _ Ep) as Hp.
  destruct (normalize_nodes_spec _ _ _ _ En) as [[e ->] Hnorm].
  split; [reflexivity|]. split; [lia|]. split; [reflexivity|].
  split; [|split; [exact Hnorm|]].
  - exists rt, path. split; [reflexivity|]. split; [|exact En].
    apply nth_app_l, nth_snoc.
  - intros o. apply set_nth_other. lia.
Qed.

(** C2: the reverse of a constructed insertion removes, at the same
    position, as many offsets as the inserted nodes take (a text counts its
    characters, an element one), with base version one more. *)
Theorem get_reversed_removes_inserted p ns v h op h' :
  construct p ns v h = Some (op, h') ->
  nth_error h' (ro_position (get_reversed op h')) = nth_error h p /\
  ro_baseVersion (get_reversed op h') = (v + 1)%Z /\
  ro_howMany (get_reversed op h') = max_offset h' (io_nodes op) /\
  (forall ts, denotes_list h' (io_nodes op) ts ->
     ro_howMany (get_reversed op h') = list_sum (map tree_offset ts)).
Proof.
  unfold construct, create_from_position. intros H.
  destruct (nth_error h p) as [[d a|n a cs|rt path]|] eqn:Ep; try discriminate.
  simpl in H.
  destruct (normalize_nodes ns (h ++ [MPos rt path])) as [ls h2] eqn:En.
  injection H as <- <-. simpl.
  destruct (normalize_nodes_spec _ _ _ _ En) as [[e ->] _].
  split; [apply nth_app_l, nth_snoc|]. split; [reflexivity|].
  split; [reflexivity|]. apply max_offset_denotes.
Qed.

Section Execute.

Variable insert : nat -> list nat -> mheap -> option (range * mheap).
Hypothesis Hframe : insert_frame insert.

(** C5: [_execute] clones the nodes before calling the writer and stores
    the clones in the operation, so after execution the operation holds
    objects distinct from the inserted ones whose contents are those of the
    nodes before insertion, whatever the writer did to the inserted nodes;
    position and base version are kept. *)
Theorem execute_keeps_original_nodes op h r op' h' :
  closedb h = true -> io_position op < List.length h ->
  forallb (fun l => Nat.ltb l (List.length h)) (io_nodes op) = true ->
  execute insert op h = Some (r, op', h') ->
  io_position op' = io_position op /\
  io_baseVersion op' = io_baseVersion op /\
  (exists h1, clone_all (io_nodes op) h = Some (io_nodes op', h1) /\
              insert (io_position op) (io_nodes op) h1 = Some (r, h')) /\
  (exists ts, denotes_list h (io_nodes op) ts /\ denotes_list h' (io_nodes op') ts) /\
  Forall (fun c => forall x, reachable h' c x -> List.length h <= x) (io_nodes op').
Proof.
  intros Hcb Hpos Hlsb H. apply closedb_closed in Hcb as Hc.
  apply forallb_lt_Forall in Hlsb as Hls.
  unfold execute in H.
  destruct (clone_all (io_nodes op) h) as [[clones h1]|] eqn:Ec; [|discriminate].
  destruct (insert (io_position op) (io_nodes op) h1) as [[r0 h2]|] eqn:Ei;
    [|discriminate].
  injection H as <- <- <-. simpl.
  destruct (clone_all_spec _ _ _ _ Hc Hls Ec) as ([e ->] & (ts & Hd0 & Hd1) & Hf).
  destruct (Hframe _ _ _ _ _ Ei) as [_ Hu].
  assert (Hk : forall c x, In c clones -> reachable (h ++ e) c x ->
                 nth_error h2 x = nth_error (h ++ e) x).
  { intros c x Hin Hr. rewrite Forall_forall in Hf.
    destruct (Hf c Hin x Hr) as [Hx1 Hx2]. apply Hu; [exact Hx2|].
    intros (rt & path & Hp & [Hr' | (n & Hn & Hr')]).
    - rewrite nth_error_app1 in Hp by exact Hpos.
      assert (Hrt : rt < List.length h) by (apply (Hc _ _ Hp); left; reflexivity).
      destruct (closed_reach _ _ _ _ Hc Hrt Hr'). lia.
    - rewrite Forall_forall in Hls.
      destruct (closed_reach _ _ _ _ Hc (Hls n Hn) Hr'). lia. }
  split; [reflexivity|]. split; [reflexivity|].
  split; [exists (h ++ e); split; [reflexivity | exact Ei]|].
  split.
  - exists ts. split; [exact Hd0|].
    apply (proj2 (denotes_frame (h ++ e) h2)); [exact Hd1|]. exact Hk.
  - apply Forall_forall. intros c Hin x Hr.
    apply reach_frame with (h := h ++ e) in Hr; [|intros y Hy; exact (Hk c y Hin Hy)].
    rewrite Forall_forall in Hf. exact (proj1 (Hf c Hin x Hr)).
Qed.

End Execute.

(** C9: [clone()] builds an independent operation: a new position object
    with the same value, the same base version, nodes that are deep copies
    (same trees, made only of new objects), while the original's nodes stay
    made of old objects; so executing the clone with any writer leaves the
    original's nodes as they were (when those nodes are not part of the
    target tree). *)
Theorem clone_op_independent op h op' h' :
  closedb h = true -> io_position op < List.length h ->
  forallb (fun l => Nat.ltb l (List.length h)) (io_nodes op) = true ->
  clone_op op h = Some (op', h') ->
  nth_error h' (io_position op') = nth_error h (io_position op) /\
  io_position op' <> io_position op /\
  io_baseVersion op' = io_baseVersion op /\
  (exists ts, denotes_list h (io_nodes op) ts /\ denotes_list h' (io_nodes op') ts) /\
  Forall (fun c => forall x, reachable h' c x -> List.length h <= x) (io_nodes op') /\
  Forall (fun n => forall x, reachable h' n x -> x < List.length h) (io_nodes op) /\
  (forall insert, insert_frame insert ->
     (forall rt path, nth_error h (io_position op) = Some (MPos rt path) ->
        forall n x, In n (io_nodes op) -> reachable h rt x -> ~ reachable h n x) ->
     forall r op'' h'', execute insert op' h' = Some (r, op'', h'') ->
     forall ts, denotes_list h (io_nodes op) ts -> denotes_list h'' (io_nodes op) ts).
Proof.
  intros Hcb Hpos Hlsb H. apply closedb_closed in Hcb as Hc.
  apply forallb_lt_Forall in Hlsb as Hls.
  unfold clone_op in H.
  destruct (clone_all (io_nodes op) h) as [[ls h1]|] eqn:Ec; [|discriminate].
  destruct (clone_all_spec _ _ _ _ Hc Hls Ec) as ([e ->] & (ts & Hd0 & Hd1) & Hf).
  unfold construct, create_from_position in H.
  rewrite nth_error_app1 in H by exact Hpos.
  destruct (nth_error h (io_position op)) as [[d a|n a cs|rt path]|] eqn:Ep;
    try discriminate.
  simpl in H. rewrite normalize_items_nodes in H.
  injection H as <- <-. simpl.
  assert (Hrt : rt < List.length h) by (apply (Hc _ _ Ep); left; reflexivity).
  assert (Hfresh : Forall (fresh_from (List.length h) ((h ++ e) ++ [MPos rt path])) ls).
  { eapply Forall_impl; [|exact Hf]. intros c. apply fresh_ext. }
  split; [apply nth_snoc|].
  split; [rewrite length_app; lia|].
  split; [reflexivity|].
  split; [exists ts; split; [exact Hd0 | apply (proj2 (denotes_mono _ _)); exact Hd1]|].
  split.
  { eapply Forall_impl; [|exact Hfresh]. intros c Hfc x Hr. exact (proj1 (Hfc x Hr)). }
  split.
  { apply Forall_forall. intros n Hin x Hr. rewrite Forall_forall in Hls.
    rewrite <- app_assoc in Hr. exact (proj2 (closed_reach _ _ _ _ Hc (Hls n Hin) Hr)). }
  intros insert Hfr Hdet r op'' h'' Hex ts' Hts.
  unfold execute in Hex. simpl in Hex.
  destruct (clone_all ls ((h ++ e) ++ [MPos rt path])) as [[ls2 h3]|] eqn:Ec2;
    [|discriminate].
  destruct (insert (List.length (h ++ e)) ls h3) as [[r0 h4]|] eqn:Ei; [|discriminate].
  injection Hex as <- <- <-.
  destruct (clone_all_prefix _ _ _ _ Ec2) as [e3 ->].
  destruct (Hfr _ _ _ _ _ Ei) as [_ Hu].
  replace (((h ++ e) ++ [MPos rt path]) ++ e3) with (h ++ (e ++ [MPos rt path] ++ e3))
    in * by (rewrite !app_assoc; reflexivity).
  apply (proj2 (denotes_frame (h ++ (e ++ [MPos rt path] ++ e3)) h4)).
  - apply (proj2 (denotes_mono _ _)). exact Hts.
  - intros n x Hin Hr. rewrite Forall_forall in Hls.
    destruct (closed_reach _ _ _ _ Hc (Hls n Hin) Hr) as [Hr0 Hx].
    apply Hu; [rewrite length_app; lia|].
    intros (rt' & path' & Hp & [Hr' | (c & Hcin & Hr')]).
    + replace (h ++ e ++ [MPos rt path] ++ e3) with (((h ++ e) ++ [MPos rt path]) ++ e3)
        in Hp by (rewrite !app_assoc; reflexivity).
      rewrite nth_error_app1 in Hp by (rewrite !length_app; simpl; lia).
      rewrite nth_snoc in Hp. injection Hp as <- <-.
      destruct (closed_reach _ _ _ _ Hc Hrt Hr') as [Hr1 _].
      exact (Hdet rt path eq_refl n x Hin Hr1 Hr0).
    + rewrite Forall_forall in Hfresh.
      replace (h ++ e ++ [MPos rt path] ++ e3) with (((h ++ e) ++ [MPos rt path]) ++ e3)
        in Hr' by (rewrite !app_assoc; reflexivity).
      apply reach_ext_inv in Hr'; [|intros y Hy; exact (proj2 (Hfresh c Hcin y Hy))].
      destruct (Hfresh c Hcin x Hr'). lia.
Qed.

(** C3 (defect): [fromJSON] decides between [Element.fromJSON] and
    [Text.fromJSON] by the truthiness of [child.name], not by the presence
    of the property.  An element whose name is the empty string is
    serialized with [name: ""] and comes back as a text node, so the
    deserialized operation inserts different content than the original. *)
Theorem from_json_reads_unnamed_element_as_text :
  json_truthy (Some (JSStr "")) = false /\
  exists j, op_to_json ex_doc unnamed_op unnamed_heap = Some j /\
  (exists fs, j = JSObj fs /\
     json_get "nodes" fs = Some (JSArr [JSObj [("name", JSStr ""); ("attributes", JSArr []);
                                              ("children", JSArr [])]])) /\
  exists op2 h2, from_json j ex_doc unnamed_heap = Some (op2, h2) /\
  map (tree_of 5 unnamed_heap) (io_nodes unnamed_op) = [Some (TElem "" [] [])] /\
  map (tree_of 5 h2) (io_nodes op2) = [Some (TText "" [])] /\
  exists r1 op1 h1, execute writer_insert unnamed_op unnamed_heap = Some (r1, op1, h1) /\
  exists r2 op2' h2', execute writer_insert op2 h2 = Some (r2, op2', h2') /\
  tree_of 5 h1 0 = Some (TElem "$root" [] [TElem "" [] []]) /\
  tree_of 5 h2' 0 = Some (TElem "$root" [] [TText "" []]).
Proof.
  split; [reflexivity|].
  let v := eval vm_compute in (op_to_json ex_doc unnamed_op unnamed_heap) in
  lazymatch v with Some ?j => exists j end.
  split; [vm_compute; reflexivity|].
  split; [eexists; split; [reflexivity | vm_compute; reflexivity]|].
  run_op.
  split; [vm_compute; reflexivity|]. split; [vm_compute; reflexivity|].
  run_op3. run_op3. split; vm_compute; reflexivity.
Qed.

(** Witnesses at the scenario of the spec: the text ["ab"] and the element
    ["x"] inserted at [(root, 0)]. *)
Lemma construct_owns_position_witness :
  exists op h', construct 1 (NSList [INode 2; IString "c"]) 5 ex_heap = Some (op, h') /\
    io_position op = 4 /\ io_position op <> 1 /\
    normalized h' (NSList [INode 2; IString "c"]) (io_nodes op).
Proof.
  run_op.
  destruct (construct_owns_position 1 (NSList [INode 2; IString "c"]) 5 ex_heap _ _
              ltac:(vm_compute; reflexivity)) as (Hp & Hne & _ & _ & Hn & _).
  split; [exact Hp|]. split; [exact Hne | exact Hn].
Defined.

Lemma get_reversed_removes_inserted_witness :
  exists op h', construct 1 (NSList [INode 2; INode 3]) 5 ex_heap = Some (op, h') /\
    nth_error h' (ro_position (get_reversed op h')) = Some (MPos 0 [0]) /\
    ro_howMany (get_reversed op h') = 3 /\
    ro_baseVersion (get_reversed op h') = 6%Z.
Proof.
  run_op.
  destruct (get_reversed_removes_inserted 1 (NSList [INode 2; INode 3]) 5 ex_heap _ _
              ltac:(vm_compute; reflexivity)) as (Hp & Hv & Hm & _).
  rewrite Hp, Hv, Hm. split; [reflexivity|]. split; vm_compute; reflexivity.
Defined.

Lemma execute_keeps_original_nodes_witness :
  exists r op' h', execute writer_insert (mkInsert 1 [2; 3] 5) ex_heap = Some (r, op', h') /\
    exists ts, denotes_list ex_heap [2; 3] ts /\ denotes_list h' (io_nodes op') ts.
Proof.
  run_op3.
  destruct (execute_keeps_original_nodes writer_insert writer_insert_frame
              (mkInsert 1 [2; 3] 5) ex_heap _ _ _
              ltac:(vm_compute; reflexivity)
              ltac:(apply Nat.ltb_lt; vm_compute; reflexivity)
              ltac:(vm_compute; reflexivity)
              ltac:(vm_compute; reflexivity)) as (_ & _ & _ & Hts & _).
  exact Hts.
Defined.

Lemma clone_op_independent_witness :
  exists op' h', clone_op (mkInsert 1 [2; 3] 5) ex_heap = Some (op', h') /\
    io_position op' <> 1 /\
    exists ts, denotes_list ex_heap [2; 3] ts /\ denotes_list h' (io_nodes op') ts.
Proof.
  run_op.
  destruct (clone_op_independent (mkInsert 1 [2; 3] 5) ex_heap _ _
              ltac:(vm_compute; reflexivity)
              ltac:(apply Nat.ltb_lt; vm_compute; reflexivity)
              ltac:(vm_compute; reflexivity)
              ltac:(vm_compute; reflexivity)) as (_ & Hne & _ & Hts & _).
  split; [exact Hne | exact Hts].
Defined.

(** C9, counterexample: an operation whose node [p] is already part of the
    document and whose position lies inside [p].  The clone inserts its copy
    of [p] into the original [p], so executing the clone changes the
    contents of the original operation's node. *)
Lemma clone_op_execution_mutates_original :
  closedb nested_heap = true /\
  exists op' h' r op'' h'',
    clone_op nested_op nested_heap = Some (op', h') /\
    execute writer_insert op' h' = Some (r, op'', h'') /\
    denotes nested_heap 2 (TElem "p" [] []) /\
    denotes h'' 2 (TElem "p" [] [TElem "p" [] []]) /\
    ~ denotes h'' 2 (TElem "p" [] []).
Proof.
  split; [vm_compute; reflexivity|].
  let v := eval vm_compute in (clone_op nested_op nested_heap) in
  lazymatch v with Some (?x, ?y) =>
    let v2 := eval vm_compute in (execute writer_insert x y) in
    lazymatch v2 with Some (?r, ?o, ?h) => exists x, y, r, o, h end end.
  split; [vm_compute; reflexivity|].
  split; [vm_compute; reflexivity|].
  split; [apply (den_elem _ 2 "p" [] [] []); [reflexivity | constructor]|].
  split.
  - eapply den_elem; [vm_compute; reflexivity|].
    constructor; [|constructor].
    eapply den_elem; [vm_compute; reflexivity | constructor].
  - intros Hd. inversion Hd as [|l n a cs ts Hl Hcs]; subst.
    vm_compute in Hl. injection Hl as <-. inversion Hcs.
Qed.

End InsertOpFacts.

(* ================================================================== *)
(** ** Further properties of the dispatcher *)
(* ================================================================== *)

Module DispatcherMore.
Import Dispatcher.
Local Open Scope string_scope.
Local Open Scope list_scope.

Definition lift (kv : string * jsval) : string * api_val := (fst kv, AVal (snd kv)).

Lemma api_set_lift k v acc :
  api_set k (AVal v) (map lift acc) = map lift (set_field k v acc).
Proof.
  induction acc as [|[k' v'] acc IH]; simpl; [reflexivity|].
  destruct (String.eqb k k'); simpl; [reflexivity|]. rewrite IH. reflexivity.
Qed.

Lemma fold_api_set_lift src acc :
  fold_left (fun acc kv => api_set (fst kv) (AVal (snd kv)) acc) src (map lift acc) =
  map lift (fold_left (fun acc kv => set_field (fst kv) (snd kv) acc) src acc).
Proof.
  revert acc. induction src as [|kv src IH]; intros acc; simpl; [reflexivity|].
  rewrite api_set_lift. apply IH.
Qed.

Lemma api_lookup_lift k fs : api_lookup k (map lift fs) = AVal (lookup_field k fs).
Proof.
  induction fs as [|[k' v] fs IH]; simpl; [reflexivity|].
  destruct (String.eqb k k'); [reflexivity | exact IH].
Qed.

Lemma api_lookup_set_same k v fs : api_lookup k (api_set k v fs) = v.
Proof.
  induction fs as [|[k' v'] fs IH]; simpl.
  - rewrite String.eqb_refl. reflexivity.
  - destruct (String.eqb k k') eqn:E; simpl.
    + rewrite E. reflexivity.
    + rewrite E. exact IH.
Qed.

Lemma api_lookup_set_other k k' v fs :
  k <> k' -> api_lookup k (api_set k' v fs) = api_lookup k fs.
Proof.
  intros Hne. induction fs as [|[k0 v0] fs IH]; simpl.
  - apply String.eqb_neq in Hne. rewrite Hne. reflexivity.
  - destruct (String.eqb k' k0) eqn:E; simpl.
    + apply String.eqb_eq in E. subst k0.
      apply String.eqb_neq in Hne. rewrite Hne. reflexivity.
    + destruct (String.eqb k k0); [reflexivity | exact IH].
Qed.

(** The conversion API of a dispatcher: [convertItem] and [convertChildren]
    are always the dispatcher's own bound methods, even when the object
    given to the constructor has properties of those names; every other
    property reads as in [extend( {}, conversionApi )], a copy of the given
    object. *)
Theorem conversion_api_binds_methods h a :
  api_lookup "convertItem" (make_conversion_api h a) = AConvertItem /\
  api_lookup "convertChildren" (make_conversion_api h a) = AConvertChildren /\
  (forall k, k <> "convertItem" -> k <> "convertChildren" ->
     api_lookup k (make_conversion_api h a) =
     AVal (lookup_field k (extend_fields [] (source_fields h a)))).
Proof.
  unfold make_conversion_api.
  split; [|split].
  - rewrite api_lookup_set_other by discriminate. apply api_lookup_set_same.
  - apply api_lookup_set_same.
  - intros k H1 H2. rewrite !api_lookup_set_other by assumption.
    change (@nil (string * api_val)) with (map lift []).
    rewrite fold_api_set_lift, api_lookup_lift. reflexivity.
Qed.

Section Unhandled.
Variable listeners : string -> list listener.

Lemma flatten_nulls h n : flatten_results h (repeat JNull n) = [].
Proof.
  unfold flatten_results.
  assert (G : forall acc, fold_left (fun a b => if truthy b then a ++ spread h b else a)
                            (repeat JNull n) acc = acc).
  { induction n as [|n IH]; intros acc; simpl; [reflexivity | apply IH]. }
  apply G.
Qed.

Lemma map_world_unhandled f c add kids : forall w,
  Forall (fun x => listeners (event_name x) = []) kids ->
  exists w1,
    map_world (fun x => convert_item listeners (S f) x c add) kids w =
      Some (repeat JNull (List.length kids), w1) /\
    w_trackers w1 = w_trackers w /\
    w_trace w1 = w_trace w ++ map (fun x => EFired (event_name x) x []) kids /\
    exists recs, w_heap w1 = w_heap w ++ recs /\ List.length recs = List.length kids.
Proof.
  induction kids as [|x kids IH]; intros w Hall.
  - exists w. simpl. split; [reflexivity|]. split; [reflexivity|].
    split; [rewrite app_nil_r; reflexivity|]. exists []. split; [|reflexivity].
    rewrite app_nil_r. reflexivity.
  - inversion Hall as [|? ? Hx Hks]; subst.
    assert (Hx1 : convert_item listeners (S f) x c add w =
      Some (JNull, mkWorld (w_heap w ++ [ORec (request_fields (w_heap w) add x)])
                           (w_trackers w) (w_trace w ++ [EFired (event_name x) x []]))).
    { simpl. rewrite Hx. simpl. unfold read_output.
      rewrite DispatcherFacts.nth_error_snoc, DispatcherFacts.request_output.
      reflexivity. }
    destruct (IH (mkWorld (w_heap w ++ [ORec (request_fields (w_heap w) add x)])
                    (w_trackers w) (w_trace w ++ [EFired (event_name x) x []])) Hks)
      as (w1 & Hm & Ht & Htr & recs & Hh & Hl).
    cbn [map_world]. rewrite Hx1, Hm. exists w1. simpl in *.
    split; [reflexivity|]. split; [exact Ht|].
    split; [rewrite Htr, <- app_assoc; reflexivity|].
    exists (ORec (request_fields (w_heap w) add x) :: recs).
    split; [rewrite Hh, <- app_assoc; reflexivity | simpl; rewrite Hl; reflexivity].
Qed.

(** Children that no converter handles contribute nothing: when no listener
    is registered for any child's event, [_convertChildren] fires one event
    per child, in order, leaves the consumables alone, and returns a new
    empty array. *)
Theorem convert_children_unhandled f v c add w kids :
  view_children v = Some kids ->
  Forall (fun x => listeners (event_name x) = []) kids ->
  exists w1,
    convert_children listeners (S f) v c add w =
      Some (JRef (List.length (w_heap w1)),
            mkWorld (w_heap w1 ++ [OArr []]) (w_trackers w)
                    (w_trace w ++ map (fun x => EFired (event_name x) x []) kids)) /\
    exists recs, w_heap w1 = w_heap w ++ recs /\ List.length recs = List.length kids.
Proof.
  intros Hk Hall. unfold convert_children, children_with. rewrite Hk.
  destruct (map_world_unhandled f c add kids w Hall)
    as (w1 & Hm & Ht & Htr & Hrecs).
  rewrite Hm. exists w1. split; [|exact Hrecs].
  rewrite flatten_nulls. unfold set_heap. rewrite Ht, Htr. reflexivity.
Qed.

(** An item no converter handles converts to [null]: when no listener is
    registered for its event, [convert] still fires [viewCleanup], builds the
    consumable and fires the one conversion event, and returns [null] (the
    [output] the request record starts with). *)
Theorem convert_unhandled cleanup_listeners f v add w :
  listeners (event_name v) = [] ->
  let h1 := fold_left (fun h l => l v h) cleanup_listeners (w_heap w) in
  convert listeners cleanup_listeners (S f) v add w =
    Some (JNull,
          mkWorld (h1 ++ [ORec (request_fields h1 add v)])
                  (w_trackers w ++ [subtree v])
                  (w_trace w ++ [ECleanup v; ECreated v; EFired (event_name v) v []])).
Proof.
  intros Hv h1. unfold convert. cbn -[request_fields event_name]. rewrite Hv.
  cbn -[request_fields event_name]. unfold read_output.
  rewrite DispatcherFacts.nth_error_snoc, DispatcherFacts.request_output.
  rewrite <- !app_assoc. reflexivity.
Qed.

End Unhandled.

Lemma convert_children_unhandled_witness :
  view_children para_item = Some [VText "a"; VText ""] /\
  exists w1,
    convert_children no_listeners 1 para_item 0 JUndef empty_world =
      Some (JRef (List.length (w_heap w1)),
            mkWorld (w_heap w1 ++ [OArr []]) []
                    ([] ++ map (fun x => EFired (event_name x) x [])
                                 [VText "a"; VText ""])) /\
    exists recs, w_heap w1 = [] ++ recs /\ List.length recs = 2.
Proof.
  split; [reflexivity|].
  exact (convert_children_unhandled no_listeners 0 para_item 0 JUndef empty_world
           [VText "a"; VText ""] eq_refl
           ltac:(repeat constructor)).
Defined.

Lemma convert_unhandled_witness :
  convert no_listeners [] 1 (VText "a") JUndef empty_world =
    Some (JNull,
          mkWorld [ORec (request_fields [] JUndef (VText "a"))] [[VText "a"]]
                  [ECleanup (VText "a"); ECreated (VText "a");
                   EFired "text" (VText "a") []]).
Proof.
  exact (convert_unhandled no_listeners [] 0 (VText "a") JUndef empty_world eq_refl).
Defined.

End DispatcherMore.

(* ================================================================== *)
(** ** Further properties of InsertOperation *)
(* ================================================================== *)

Module InsertOpMore.
Import InsertOp.
Import InsertOpFacts.
Local Open Scope string_scope.
Local Open Scope list_scope.

(** Contents of the operation after [_execute], and after [clone()]. *)
Lemma execute_contents insert (Hframe : insert_frame insert) op h r op' h' :
  closed h -> io_position op < List.length h ->
  Forall (fun l => l < List.length h) (io_nodes op) ->
  execute insert op h = Some (r, op', h') ->
  io_position op' = io_position op /\
  io_baseVersion op' = io_baseVersion op /\
  exists ts, denotes_list h (io_nodes op) ts /\ denotes_list h' (io_nodes op') ts.
Proof.
  intros Hc Hpos Hls H. unfold execute in H.
  destruct (clone_all (io_nodes op) h) as [[clones h1]|] eqn:Ec; [|discriminate].
  destruct (insert (io_position op) (io_nodes op) h1) as [[r0 h2]|] eqn:Ei;
    [|discriminate].
  injection H as <- <- <-. simpl.
  destruct (clone_all_spec _ _ _ _ Hc Hls Ec) as ([e ->] & (ts & Hd0 & Hd1) & Hf).
  destruct (Hframe _ _ _ _ _ Ei) as [_ Hu].
  split; [reflexivity|]. split; [reflexivity|].
  exists ts. split; [exact Hd0|].
  apply (proj2 (denotes_frame (h ++ e) h2)); [exact Hd1|].
  intros c x Hin Hr. rewrite Forall_forall in Hf.
  destruct (Hf c Hin x Hr) as [Hx1 Hx2]. apply Hu; [exact Hx2|].
  intros (rt & path & Hp & [Hr' | (n & Hn & Hr')]).
  - rewrite nth_error_app1 in Hp by exact Hpos.
    assert (Hrt : rt < List.length h) by (apply (Hc _ _ Hp); left; reflexivity).
    destruct (closed_reach _ _ _ _ Hc Hrt Hr'). lia.
  - rewrite Forall_forall in Hls.
    destruct (closed_reach _ _ _ _ Hc (Hls n Hn) Hr'). lia.
Qed.

Lemma clone_op_contents op h op' h' :
  closed h -> io_position op < List.length h ->
  Forall (fun l => l < List.length h) (io_nodes op) ->
  clone_op op h = Some (op', h') ->
  nth_error h' (io_position op') = nth_error h (io_position op) /\
  io_baseVersion op' = io_baseVersion op /\
  exists ts, denotes_list h (io_nodes op) ts /\ denotes_list h' (io_nodes op') ts.
Proof.
  intros Hc Hpos Hls H. unfold clone_op in H.
  destruct (clone_all (io_nodes op) h) as [[ls h1]|] eqn:Ec; [|discriminate].
  destruct (clone_all_spec _ _ _ _ Hc Hls Ec) as ([e ->] & (ts & Hd0 & Hd1) & _).
  unfold construct, create_from_position in H.
  rewrite nth_error_app1 in H by exact Hpos.
  destruct (nth_error h (io_position op)) as [[d a|n a cs|rt path]|] eqn:Ep;
    try discriminate.
  simpl in H. rewrite normalize_items_nodes in H.
  injection H as <- <-. simpl.
  split; [apply nth_snoc|]. split; [reflexivity|].
  exists ts. split; [exact Hd0 | apply (proj2 (denotes_mono _ _)); exact Hd1].
Qed.

(** Copies made one after the other share no object. *)
Lemma map_heap_clone_disjoint (g : nat -> mheap -> option (nat * mheap))
  (Hg : forall h0 e0 l l' h', closed h0 -> l < List.length h0 ->
     g l (h0 ++ e0) = Some (l', h') ->
     (exists e, h' = h0 ++ e0 ++ e) /\
     (exists t, denotes h0 l t /\ denotes h' l' t) /\
     fresh_from (List.length (h0 ++ e0)) h' l') :
  forall ls h0 e0 ls' h', closed h0 -> Forall (fun l => l < List.length h0) ls ->
    map_heap g ls (h0 ++ e0) = Some (ls', h') ->
    ForallOrdPairs (fun a b => forall x, reachable h' a x -> ~ reachable h' b x) ls'.
Proof.
  induction ls as [|l ls IH]; intros h0 e0 ls' h' Hc Hlt H; simpl in H.
  - injection H as <- <-. constructor.
  - destruct (g l (h0 ++ e0)) as [[l1 h1]|] eqn:E1; [|discriminate].
    destruct (map_heap g ls h1) as [[ls1 h2]|] eqn:E2; [|discriminate].
    injection H as <- <-. inversion Hlt as [|? ? Hl Hls]; subst.
    destruct (Hg _ _ _ _ _ Hc Hl E1) as ([e1 ->] & _ & Hf1).
    destruct (map_heap_clone_spec g Hg ls h0 (e0 ++ e1) _ _ Hc Hls E2)
      as ([e2 ->] & _ & Hf2).
    constructor.
    + apply Forall_forall. intros b Hb x Hrx Hrb.
      rewrite Forall_forall in Hf2. destruct (Hf2 b Hb x Hrb) as [Hlo _].
      replace (h0 ++ (e0 ++ e1) ++ e2) with ((h0 ++ e0 ++ e1) ++ e2) in Hrx
        by (rewrite !app_assoc; reflexivity).
      apply reach_ext_inv in Hrx; [|intros y Hy; exact (proj2 (Hf1 y Hy))].
      destruct (Hf1 x Hrx) as [_ Hhi]. rewrite !length_app in Hlo, Hhi. lia.
    + exact (IH h0 (e0 ++ e1) _ _ Hc Hls E2).
Qed.

Lemma clone_all_disjoint h ls ls' h' :
  closed h -> Forall (fun l => l < List.length h) ls ->
  clone_all ls h = Some (ls', h') ->
  ForallOrdPairs (fun a b => forall x, reachable h' a x -> ~ reachable h' b x) ls'.
Proof.
  intros Hc Hls H.
  assert (Hg : forall h0 e0 l l' h', closed h0 -> l < List.length h0 ->
     clone_deep l (h0 ++ e0) = Some (l', h') ->
     (exists e, h' = h0 ++ e0 ++ e) /\
     (exists t, denotes h0 l t /\ denotes h' l' t) /\
     fresh_from (List.length (h0 ++ e0)) h' l').
  { intros h0 e0 l l' h1 Hc0 Hl0 Hcl. eapply clone_node_spec; eauto. }
  unfold clone_all in H. rewrite <- (app_nil_r h) in H.
  exact (map_heap_clone_disjoint clone_deep Hg ls h [] ls' h' Hc Hls H).
Qed.

Lemma disjoint_ext h e ls :
  Forall (fresh_from 0 h) ls ->
  ForallOrdPairs (fun a b => forall x, reachable h a x -> ~ reachable h b x) ls ->
  ForallOrdPairs (fun a b => forall x, reachable (h ++ e) a x -> ~ reachable (h ++ e) b x) ls.
Proof.
  intros Hf Hd. induction Hd as [|a ls Ha Hd IH]; constructor.
  - inversion Hf as [|? ? Hfa Hfs]; subst.
    rewrite Forall_forall in Ha |- *. intros b Hb x Hra Hrb.
    rewrite Forall_forall in Hfs.
    apply reach_ext_inv in Hra; [|intros y Hy; exact (proj2 (Hfa y Hy))].
    apply reach_ext_inv in Hrb; [|intros y Hy; exact (proj2 (Hfs b Hb y Hy))].
    exact (Ha b Hb x Hra Hrb).
  - inversion Hf; subst. exact (IH ltac:(assumption)).
Qed.

(** [clone()] gives each node its own copy: no two nodes of the clone share
    an object, even when the operation holds the same node twice or a node
    and one of its descendants. *)
Theorem clone_op_copies_disjoint op h op' h' :
  closedb h = true -> io_position op < List.length h ->
  forallb (fun l => Nat.ltb l (List.length h)) (io_nodes op) = true ->
  clone_op op h = Some (op', h') ->
  ForallOrdPairs (fun a b => forall x, reachable h' a x -> ~ reachable h' b x)
    (io_nodes op').
Proof.
  intros Hcb Hpos Hlsb H. apply closedb_closed in Hcb as Hc.
  apply forallb_lt_Forall in Hlsb as Hls.
  unfold clone_op in H.
  destruct (clone_all (io_nodes op) h) as [[ls h1]|] eqn:Ec; [|discriminate].
  pose proof (clone_all_disjoint _ _ _ _ Hc Hls Ec) as Hdis.
  destruct (clone_all_spec _ _ _ _ Hc Hls Ec) as ([e ->] & _ & Hf).
  unfold construct, create_from_position in H.
  rewrite nth_error_app1 in H by exact Hpos.
  destruct (nth_error h (io_position op)) as [[d a|n a cs|rt path]|] eqn:Ep;
    try discriminate.
  simpl in H. rewrite normalize_items_nodes in H.
  injection H as <- <-. simpl.
  apply disjoint_ext; [|exact Hdis].
  eapply Forall_impl; [|exact Hf]. intros c Hfc x Hr.
  destruct (Hfc x Hr). split; lia.
Qed.

Section Execute.

Variable insert : nat -> list nat -> mheap -> option (range * mheap).
Hypothesis Hframe : insert_frame insert.

(** Executing an insertion does not change its reverse: the removal built
    by [getReversed()] after [_execute] (from the stored clones) has the
    same position, width and base version as the one built before, whatever
    the writer did to the inserted nodes (text merging, new children). *)
Theorem execute_keeps_reversed op h r op' h' :
  closedb h = true -> io_position op < List.length h ->
  forallb (fun l => Nat.ltb l (List.length h)) (io_nodes op) = true ->
  execute insert op h = Some (r, op', h') ->
  get_reversed op' h' = get_reversed op h.
Proof.
  intros Hcb Hpos Hlsb H.
  destruct (execute_contents insert Hframe op h r op' h'
              (closedb_closed _ Hcb) Hpos (forallb_lt_Forall _ _ Hlsb) H)
    as (Hp & Hv & ts & Hd0 & Hd1).
  unfold get_reversed. rewrite Hp, Hv, (max_offset_denotes _ _ _ Hd0),
    (max_offset_denotes _ _ _ Hd1).
  reflexivity.
Qed.

(** [_execute()] inserts copies that share no object with one another: in the
    document after the insertion, no object is reachable from two of the
    operation's new nodes, even when the operation held the same node twice
    or a node and one of its descendants. *)
Theorem execute_copies_disjoint op h r op' h' :
  closedb h = true -> io_position op < List.length h ->
  forallb (fun l => Nat.ltb l (List.length h)) (io_nodes op) = true ->
  execute insert op h = Some (r, op', h') ->
  ForallOrdPairs (fun a b => forall x, reachable h' a x -> ~ reachable h' b x)
    (io_nodes op').
Proof.
  intros Hcb Hpos Hlsb H. apply closedb_closed in Hcb as Hc.
  apply forallb_lt_Forall in Hlsb as Hls.
  unfold execute in H.
  destruct (clone_all (io_nodes op) h) as [[clones h1]|] eqn:Ec; [|discriminate].
  destruct (insert (io_position op) (io_nodes op) h1) as [[r0 h2]|] eqn:Ei;
    [|discriminate].
  injection H as <- <- <-. simpl.
  pose proof (clone_all_disjoint _ _ _ _ Hc Hls Ec) as Hdis.
  destruct (clone_all_spec _ _ _ _ Hc Hls Ec) as ([e ->] & _ & Hf).
  destruct (Hframe _ _ _ _ _ Ei) as [_ Hu].
  assert (Hk : forall c y, In c clones -> reachable (h ++ e) c y ->
                 nth_error h2 y = nth_error (h ++ e) y).
  { intros c y Hin Hr. rewrite Forall_forall in Hf.
    destruct (Hf c Hin y Hr) as [Hx1 Hx2]. apply Hu; [exact Hx2|].
    intros (rt & path & Hp & [Hr' | (n & Hn & Hr')]).
    - rewrite nth_error_app1 in Hp by exact Hpos.
      assert (Hrt : rt < List.length h) by (apply (Hc _ _ Hp); left; reflexivity).
      destruct (closed_reach _ _ _ _ Hc Hrt Hr'). lia.
    - rewrite Forall_forall in Hls.
      destruct (closed_reach _ _ _ _ Hc (Hls n Hn) Hr'). lia. }
  clear Hf Ec Ei Hu.
  induction Hdis as [|a cs Ha Hd IH]; constructor.
  - rewrite Forall_forall in Ha |- *. intros b Hb x Hra Hrb.
    apply (reach_frame (h ++ e)) in Hra; [|intros y Hy; apply (Hk a); [left|]; auto].
    apply (reach_frame (h ++ e)) in Hrb; [|intros y Hy; apply (Hk b); [right|]; auto].
    exact (Ha b Hb x Hra Hrb).
  - apply IH. intros c y Hin. apply Hk. right. exact Hin.
Qed.

End Execute.

(** The clone of an operation has the same reverse: a removal at a position
    of equal value, of the same width, with the same base version. *)
Theorem clone_op_keeps_reversed op h op' h' :
  closedb h = true -> io_position op < List.length h ->
  forallb (fun l => Nat.ltb l (List.length h)) (io_nodes op) = true ->
  clone_op op h = Some (op', h') ->
  nth_error h' (ro_position (get_reversed op' h')) =
    nth_error h (ro_position (get_reversed op h)) /\
  ro_howMany (get_reversed op' h') = ro_howMany (get_reversed op h) /\
  ro_baseVersion (get_reversed op' h') = ro_baseVersion (get_reversed op h).
Proof.
  intros Hcb Hpos Hlsb H.
  destruct (clone_op_contents op h op' h' (closedb_closed _ Hcb) Hpos
              (forallb_lt_Forall _ _ Hlsb) H) as (Hp & Hv & ts & Hd0 & Hd1).
  simpl. split; [exact Hp|]. split; [|rewrite Hv; reflexivity].
  rewrite (max_offset_denotes _ _ _ Hd0), (max_offset_denotes _ _ _ Hd1).
  reflexivity.
Qed.

(** Inserting a string inserts one new text node holding it, and the
    reverse removes as many offsets as the string has characters. *)
Theorem construct_string_reversed p s v h op h' :
  construct p (NSString s) v h = Some (op, h') ->
  io_nodes op = [S (List.length h)] /\
  nth_error h' (S (List.length h)) = Some (MText s []) /\
  ro_howMany (get_reversed op h') = String.length s.
Proof.
  unfold construct, create_from_position. intros H.
  destruct (nth_error h p) as [[d a|n a cs|rt path]|] eqn:Ep; try discriminate.
  simpl in H. injection H as <- <-. simpl.
  rewrite length_app. simpl. rewrite Nat.add_1_r.
  assert (Hn : nth_error ((h ++ [MPos rt path]) ++ [MText s []]) (S (List.length h))
               = Some (MText s [])).
  { replace (S (List.length h)) with (List.length (h ++ [MPos rt path]))
      by (rewrite length_app; simpl; lia).
    apply nth_snoc. }
  split; [reflexivity|]. split; [exact Hn|].
  unfold max_offset. cbn [fold_left]. unfold offset_size. rewrite Hn. reflexivity.
Qed.

Lemma attrs_round a : attrs_of_json (Some (attrs_to_json a)) = a.
Proof.
  unfold attrs_of_json, attrs_to_json.
  induction a as [|[k v] a IH]; simpl in *; [reflexivity | rewrite IH; reflexivity].
Qed.

Lemma text_from_tree_json d a h :
  text_from_json (tree_to_json (TText d a)) h = Some (alloc h (MText d a)).
Proof. cbn -[alloc attrs_of_json attrs_to_json]. rewrite attrs_round. reflexivity. Qed.

Lemma json_size_elem n a ts :
  json_size (tree_to_json (TElem n a ts)) =
  3 + json_size (attrs_to_json a) +
  fold_right (fun x acc => json_size x + acc) 0 (map tree_to_json ts).
Proof. simpl. lia. Qed.

Lemma element_from_tree_json fuel : forall n a ts h,
  json_size (tree_to_json (TElem n a ts)) <= fuel ->
  exists l e, element_from_json fuel (tree_to_json (TElem n a ts)) h = Some (l, h ++ e) /\
    denotes (h ++ e) l (TElem n a ts).
Proof.
  induction fuel as [|f IHf]; intros n a ts h Hs.
  - simpl in Hs. lia.
  - rewrite json_size_elem in Hs.
    cbn -[alloc attrs_of_json attrs_to_json].
    match goal with |- context [?D (map tree_to_json ts) h] =>
      assert (Hdec : forall ts0 h0,
        fold_right (fun x acc => json_size x + acc) 0 (map tree_to_json ts0) <= f ->
        exists ls e, D (map tree_to_json ts0) h0 = Some (ls, h0 ++ e) /\
                     denotes_list (h0 ++ e) ls ts0) end.
    { induction ts0 as [|t ts0 IHts]; intros h0 Hs0.
      - exists [], []. rewrite app_nil_r. split; [reflexivity | apply den_nil].
      - cbn [map fold_right] in Hs0 |- *.
        destruct t as [d a0|n0 a0 ts1].
        + cbn -[alloc attrs_of_json attrs_to_json element_from_json].
          rewrite attrs_round. unfold alloc. cbv beta iota.
          destruct (IHts (h0 ++ [MText d a0]) ltac:(lia)) as (ls & e & Hr & Hd).
          rewrite Hr. exists (List.length h0 :: ls), ([MText d a0] ++ e).
          rewrite app_assoc. split; [reflexivity|].
          apply den_cons; [|exact Hd]. apply den_text. apply nth_app_l, nth_snoc.
        + destruct (IHf n0 a0 ts1 h0 ltac:(lia)) as (l1 & e1 & He & Hd1).
          change (tree_to_json (TElem n0 a0 ts1)) with
            (JSObj [("name", JSStr n0); ("attributes", attrs_to_json a0);
                    ("children", JSArr (map tree_to_json ts1))]) in He.
          cbn -[alloc attrs_of_json attrs_to_json element_from_json].
          rewrite He.
          destruct (IHts (h0 ++ e1) ltac:(lia)) as (ls & e & Hr & Hd).
          rewrite Hr. exists (l1 :: ls), (e1 ++ e).
          rewrite app_assoc. split; [reflexivity|].
          apply den_cons; [|exact Hd]. apply (proj1 (denotes_mono _ _)). exact Hd1. }
    destruct (Hdec ts h ltac:(lia)) as (ls & e & Hr & Hd).
    rewrite Hr, attrs_round. unfold alloc.
    exists (List.length (h ++ e)), (e ++ [MElem n a ls]).
    rewrite app_assoc. split; [reflexivity|].
    eapply den_elem; [apply nth_snoc|]. apply (proj2 (denotes_mono _ _)). exact Hd.
Qed.

Lemma node_to_json_tree f : forall h l j,
  node_to_json f h l = Some j -> exists t, denotes h l t /\ j = tree_to_json t.
Proof.
  induction f as [|f IHf]; intros h l j H; [discriminate|].
  simpl in H. destruct (nth_error h l) as [[d a|n a cs|r p]|] eqn:E; try discriminate.
  - injection H as <-. exists (TText d a). split; [apply den_text; exact E | reflexivity].
  - assert (Hcs : forall ds js,
      fold_right (fun c acc => match node_to_json f h c, acc with
                               | Some j, Some js => Some (j :: js)
                               | _, _ => None
                               end) (Some []) ds = Some js ->
      exists ts, denotes_list h ds ts /\ js = map tree_to_json ts).
    { induction ds as [|c cs0 IHc]; intros js Hf; simpl in Hf.
      - injection Hf as <-. exists []. split; [apply den_nil | reflexivity].
      - destruct (node_to_json f h c) as [jc|] eqn:Ec; [|discriminate].
        destruct (fold_right _ (Some []) cs0) as [js0|] eqn:Er; [|discriminate].
        injection Hf as <-.
        destruct (IHf _ _ _ Ec) as (t & Ht & ->).
        destruct (IHc js0 eq_refl) as (ts & Hts & ->).
        exists (t :: ts). split; [apply den_cons; assumption | reflexivity]. }
    destruct (fold_right _ (Some []) cs) as [js|] eqn:Ef; [|discriminate].
    injection H as <-. destruct (Hcs cs js Ef) as (ts & Hts & ->).
    exists (TElem n a ts). split; [eapply den_elem; eassumption | reflexivity].
Qed.

Lemma nodes_to_json_trees f h cs js :
  fold_right (fun c acc => match node_to_json f h c, acc with
                           | Some j, Some js => Some (j :: js)
                           | _, _ => None
                           end) (Some []) cs = Some js ->
  exists ts, denotes_list h cs ts /\ js = map tree_to_json ts.
Proof.
  revert js. induction cs as [|c cs IH]; intros js Hf; simpl in Hf.
  - injection Hf as <-. exists []. split; [apply den_nil | reflexivity].
  - destruct (node_to_json f h c) as [jc|] eqn:Ec; [|discriminate].
    destruct (fold_right _ (Some []) cs) as [js0|] eqn:Er; [|discriminate].
    injection Hf as <-.
    destruct (node_to_json_tree _ _ _ _ Ec) as (t & Ht & ->).
    destruct (IH js0 eq_refl) as (ts & Hts & ->).
    exists (t :: ts). split; [apply den_cons; assumption | reflexivity].
Qed.

Lemma decode_children_trees ts : forall h,
  Forall named_top ts ->
  exists ls e, decode_children (map tree_to_json ts) h = Some (ls, h ++ e) /\
    denotes_list (h ++ e) ls ts.
Proof.
  induction ts as [|t ts IH]; intros h Hn.
  - exists [], []. rewrite app_nil_r. split; [reflexivity | apply den_nil].
  - inversion Hn as [|? ? Ht Hts]; subst.
    destruct t as [d a|n a ts1].
    + cbn [decode_children map]. cbn -[alloc attrs_of_json attrs_to_json decode_children].
      rewrite attrs_round. unfold alloc. cbv beta iota.
      destruct (IH (h ++ [MText d a]) Hts) as (ls & e & Hr & Hd).
      rewrite Hr. exists (List.length h :: ls), ([MText d a] ++ e).
      rewrite app_assoc. split; [reflexivity|].
      apply den_cons; [|exact Hd]. apply den_text. apply nth_app_l, nth_snoc.
    + cbn [decode_children map].
      cbn -[alloc attrs_of_json attrs_to_json decode_children json_size element_from_json].
      simpl in Ht. apply String.eqb_neq in Ht. rewrite Ht. simpl negb. cbv iota.
      destruct (element_from_tree_json (json_size (tree_to_json (TElem n a ts1)))
                  n a ts1 h (le_n _)) as (l1 & e1 & He & Hd1).
      change (tree_to_json (TElem n a ts1)) with
        (JSObj [("name", JSStr n); ("attributes", attrs_to_json a);
                ("children", JSArr (map tree_to_json ts1))]) in He.
      rewrite He.
      destruct (IH (h ++ e1) Hts) as (ls & e & Hr & Hd).
      rewrite Hr. exists (l1 :: ls), (e1 ++ e).
      rewrite app_assoc. split; [reflexivity|].
      apply den_cons; [|exact Hd]. apply (proj1 (denotes_mono _ _)). exact Hd1.
Qed.

Lemma nodup_fst_unique {A B} (l : list (A * B)) k v1 v2 :
  NoDup (map fst l) -> In (k, v1) l -> In (k, v2) l -> v1 = v2.
Proof.
  induction l as [|[k0 v0] l IH]; intros Hnd H1 H2; [destruct H1|].
  simpl in Hnd. inversion Hnd as [|? ? Hnin Hnd']; subst.
  destruct H1 as [E1|H1], H2 as [E2|H2].
  - congruence.
  - exfalso. apply Hnin. replace k0 with k by congruence.
    exact (in_map fst l (k, v2) H2).
  - exfalso. apply Hnin. replace k0 with k by congruence.
    exact (in_map fst l (k, v1) H1).
  - exact (IH Hnd' H1 H2).
Qed.

Lemma path_round path :
  flat_map (fun x => match x with JSNum z => [Z.to_nat z] | _ => [] end)
    (map (fun o => JSNum (Z.of_nat o)) path) = path.
Proof.
  induction path as [|o path IH]; simpl; [reflexivity|].
  rewrite Nat2Z.id, IH. reflexivity.
Qed.

Lemma get_root_name doc r n :
  NoDup (map fst (roots doc)) -> root_name doc r = Some n -> get_root doc n = Some r.
Proof.
  unfold root_name, get_root. intros Hnd Hr.
  destruct (find (fun kv => Nat.eqb (snd kv) r) (roots doc)) as [[n0 r0]|] eqn:Ef;
    [|discriminate].
  injection Hr as ->.
  apply find_some in Ef as [Hin Heq]. simpl in Heq. apply Nat.eqb_eq in Heq. subst r0.
  destruct (find (fun kv => String.eqb (fst kv) n) (roots doc)) as [[n1 r1]|] eqn:Eg.
  - apply find_some in Eg as [Hin' Heq']. simpl in Heq'. apply String.eqb_eq in Heq'.
    subst n1. f_equal. exact (nodup_fst_unique _ _ _ _ Hnd Hin' Hin).
  - exfalso. apply (find_none _ _ Eg) in Hin. simpl in Hin.
    rewrite String.eqb_refl in Hin. discriminate.
Qed.

Lemma position_round doc h p pj h2 :
  NoDup (map fst (roots doc)) -> position_to_json doc h p = Some pj ->
  exists r path, nth_error h p = Some (MPos r path) /\
    position_from_json (Some pj) doc h2 = Some (alloc h2 (MPos r path)).
Proof.
  unfold position_to_json. intros Hnd H.
  destruct (nth_error h p) as [[d a|n a cs|r path]|]; try discriminate.
  destruct (root_name doc r) as [n|] eqn:Er; [|discriminate].
  injection H as <-. exists r, path. split; [reflexivity|].
  cbn -[get_root alloc]. rewrite (get_root_name _ _ _ Hnd Er), path_round.
  reflexivity.
Qed.

Lemma denotes_named h ls ts :
  denotes_list h ls ts ->
  forallb (fun l => match nth_error h l with
                    | Some (MElem n _ _) => negb (String.eqb n "")
                    | _ => true
                    end) ls = true ->
  Forall named_top ts.
Proof.
  induction 1 as [|l ls t ts Ht Hts IH]; intros Hb; [constructor|].
  simpl in Hb. apply andb_prop in Hb as [Hl Hls]. constructor; [|exact (IH Hls)].
  destruct Ht as [l d a E|l n a cs ts0 E _]; simpl; [exact I|].
  rewrite E in Hl. apply negb_true_iff, String.eqb_neq in Hl. exact Hl.
Qed.

(** [fromJSON] inverts the serialized form of an operation whose inserted
    elements have non-empty names (nested elements may have any name), in a
    document whose root names are distinct: the operation read back has a
    position of the same value, the same base version and new nodes holding
    the same trees. *)
Theorem from_json_round_trip op doc h j :
  NoDup (map fst (roots doc)) ->
  forallb (fun l => match nth_error h l with
                    | Some (MElem n _ _) => negb (String.eqb n "")
                    | _ => true
                    end) (io_nodes op) = true ->
  op_to_json doc op h = Some j ->
  exists op2 h2, from_json j doc h = Some (op2, h2) /\
    (exists e, h2 = h ++ e) /\
    nth_error h2 (io_position op2) = nth_error h (io_position op) /\
    io_baseVersion op2 = io_baseVersion op /\
    exists ts, denotes_list h (io_nodes op) ts /\ denotes_list h2 (io_nodes op2) ts.
Proof.
  intros Hnd Hnamed H. unfold op_to_json in H.
  destruct (position_to_json doc h (io_position op)) as [pj|] eqn:Ep; [|discriminate].
  destruct (fold_right _ (Some []) (io_nodes op)) as [njs|] eqn:En; [|discriminate].
  injection H as <-.
  destruct (nodes_to_json_trees _ _ _ _ En) as (ts & Hts & ->).
  destruct (decode_children_trees ts h (denotes_named _ _ _ Hts Hnamed))
    as (ls & e & Hdec & Hd).
  destruct (position_round doc h (io_position op) pj (h ++ e) Hnd Ep)
    as (r & path & Hp & Hpos).
  cbn -[decode_children position_from_json construct].
  rewrite Hdec, Hpos. unfold alloc.
  unfold construct, create_from_position. rewrite nth_snoc. unfold alloc.
  unfold normalize_nodes. rewrite normalize_items_nodes.
  eexists _, _. split; [reflexivity|]. simpl.
  split; [exists (e ++ [MPos r path; MPos r path]); rewrite <- !app_assoc; reflexivity|].
  split; [rewrite nth_snoc, Hp; reflexivity|].
  split; [reflexivity|].
  exists ts. split; [exact Hts|].
  apply (proj2 (denotes_mono _ _)), (proj2 (denotes_mono _ _)). exact Hd.
Qed.

Lemma from_json_round_trip_witness :
  exists j, op_to_json ex_doc (mkInsert 1 [2; 3] 5) ex_heap = Some j /\
  exists op2 h2, from_json j ex_doc ex_heap = Some (op2, h2) /\
    exists ts, denotes_list ex_heap [2; 3] ts /\ denotes_list h2 (io_nodes op2) ts.
Proof.
  let v := eval vm_compute in (op_to_json ex_doc (mkInsert 1 [2; 3] 5) ex_heap) in
  lazymatch v with Some ?j => exists j end.
  split; [vm_compute; reflexivity|].
  destruct (from_json_round_trip (mkInsert 1 [2; 3] 5) ex_doc ex_heap _
              ltac:(repeat constructor; simpl; tauto)
              ltac:(vm_compute; reflexivity)
              ltac:(vm_compute; reflexivity))
    as (op2 & h2 & Hf & _ & _ & _ & Hts).
  exists op2, h2. split; [exact Hf | exact Hts].
Defined.

Lemma execute_keeps_reversed_witness :
  exists r op' h', execute writer_insert (mkInsert 1 [2; 3] 5) ex_heap = Some (r, op', h') /\
    get_reversed op' h' = get_reversed (mkInsert 1 [2; 3] 5) ex_heap.
Proof.
  run_op3.
  exact (execute_keeps_reversed writer_insert writer_insert_frame
           (mkInsert 1 [2; 3] 5) ex_heap _ _ _
           ltac:(vm_compute; reflexivity)
           ltac:(apply Nat.ltb_lt; vm_compute; reflexivity)
           ltac:(vm_compute; reflexivity)
           ltac:(vm_compute; reflexivity)).
Defined.

Lemma clone_op_keeps_reversed_witness :
  exists op' h', clone_op (mkInsert 1 [2; 3] 5) ex_heap = Some (op', h') /\
    ro_howMany (get_reversed op' h') = 3.
Proof.
  run_op.
  destruct (clone_op_keeps_reversed (mkInsert 1 [2; 3] 5) ex_heap _ _
              ltac:(vm_compute; reflexivity)
              ltac:(apply Nat.ltb_lt; vm_compute; reflexivity)
              ltac:(vm_compute; reflexivity)
              ltac:(vm_compute; reflexivity)) as (_ & Hm & _).
  rewrite Hm. vm_compute. reflexivity.
Defined.

Lemma construct_string_reversed_witness :
  exists op h', construct 1 (NSString "abc") 5 ex_heap = Some (op, h') /\
    ro_howMany (get_reversed op h') = 3.
Proof.
  run_op.
  destruct (construct_string_reversed 1 "abc" 5 ex_heap _ _
              ltac:(vm_compute; reflexivity)) as (_ & _ & Hm).
  exact Hm.
Defined.

Lemma clone_op_copies_disjoint_witness :
  exists op' h', clone_op (mkInsert 1 [2; 2] 5) ex_heap = Some (op', h') /\
    ForallOrdPairs (fun a b => forall x, reachable h' a x -> ~ reachable h' b x)
      (io_nodes op').
Proof.
  run_op.
  exact (clone_op_copies_disjoint (mkInsert 1 [2; 2] 5) ex_heap _ _
           ltac:(vm_compute; reflexivity)
           ltac:(apply Nat.ltb_lt; vm_compute; reflexivity)
           ltac:(vm_compute; reflexivity)
           ltac:(vm_compute; reflexivity)).
Defined.

Lemma execute_copies_disjoint_witness :
  exists r op' h', execute writer_insert (mkInsert 1 [3; 3] 5) ex_heap = Some (r, op', h') /\
    ForallOrdPairs (fun a b => forall x, reachable h' a x -> ~ reachable h' b x)
      (io_nodes op').
Proof.
  run_op3.
  exact (execute_copies_disjoint writer_insert writer_insert_frame
           (mkInsert 1 [3; 3] 5) ex_heap _ _ _
           ltac:(vm_compute; reflexivity)
           ltac:(apply Nat.ltb_lt; vm_compute; reflexivity)
           ltac:(vm_compute; reflexivity)
           ltac:(vm_compute; reflexivity)).
Defined.

End InsertOpMore.
